(** * docxml: the tree repair, the child flattener, the component codecs,
      the settings part and the parameter check

    A shallow embedding of the TypeScript sources and the properties the
    specification states about them.

    - [Repair]: [bumpInvalidChildrenToAncestry], the repair of invalid
      nesting that comes with the JSX pragma.
    - [Flatten]: [ensureFlatResolvedArray] and [recursiveFlattenArray], the
      flattening of JSX children.
    - [Components]: [TextAddition] (components/TextAddition.ts) and
      [Paragraph] (components/Paragraph.ts).
    - [SettingsPart]: [Settings] (files/Settings.ts).
    - [ParameterChecking]: the parameter check that
      utilities/parameter-checking.test.ts exercises. *)

From Stdlib Require Import Ascii.
From stdpp Require Import base option list strings gmap gmultiset.

Set Warnings "-register-all".


(** ** Outcomes of code that may throw *)

Inductive Result (E A : Type) : Type :=
| Returned (a : A)
| Thrown (e : E).
Arguments Returned {E A} a.
Arguments Thrown {E A} e.

(** * The tree repair: [bumpInvalidChildrenToAncestry] *)

Module Repair.

(** The static side of a component, as far as the repair reads it:
    [node.component.type], [node.component.children] and
    [node.component.mixed]. *)
Record AstComponent : Type := mkAstComponent {
  type : string;
  children : list string;
  mixed : bool
}.

(** The only error of the repair:
    [new Error('DXE030: Some AST nodes could not be given a valid position.')]. *)
Inductive RepairError : Type :=
| DXE030.

(** [padded P l l']: the list [l'] is the list [l], in its order, with
    elements that satisfy [P] put in between. *)
Inductive padded {A : Type} (P : A → Prop) : list A → list A → Prop :=
| padded_nil : padded P [] []
| padded_keep x l l' : padded P l l' → padded P (x :: l) (x :: l')
| padded_add x l l' : P x → padded P l l' → padded P l (x :: l').

Section Repair.
Context {Style Props : Type}.

(** An element of a children array, [string | AstNode].  An [AstNode] is the
    object the JSX pragma builds: [{ component, style, props, children }]. *)
Inductive AstNode : Type :=
| AstString (s : string)
| AstElement (component : AstComponent) (style : Style) (props : Props)
    (node_children : list AstNode).

(** The test of the inner loop:
    [(typeof child === 'string' && node.component.mixed) ||
     (typeof child !== 'string' &&
      node.component.children.includes(child.component.type))]. *)
Definition child_is_valid (parent : AstComponent) (child : AstNode) : bool :=
  match child with
  | AstString _ => mixed parent
  | AstElement c _ _ _ => bool_decide (type c ∈ children parent)
  end.

(** The inner [for (let i = 0; i < node.children.length; i++)] loop, run on
    the children array [l]: it passes over valid children and stops at the
    first invalid one, [l[i]].  The two [splice] calls then cut the array
    into the kept prefix [l[0..i)], the removed child [l[i]] and the removed
    tail [l(i..)]; the array now has length [i], so the loop ends there.
    [None] when every child is valid and nothing is cut. *)
Fixpoint scan_children (parent : AstComponent) (l : list AstNode)
  : list AstNode * option (AstNode * list AstNode) :=
  match l with
  | [] => ([], None)
  | child :: tail =>
      if child_is_valid parent child
      then let '(kept, cut) := scan_children parent tail in (child :: kept, cut)
      else ([], Some (child, tail))
  end.

(** The recursive closure [walk(nodes)].  [nodes] is the array being walked
    from index [y] on; the result is that part of the array once the loop
    has finished.  On an element node the children are walked first
    ([walk(node.children)]), then scanned.  When the scan cuts, the removed
    child and a clone [{ ...node, children: tail }] are spliced into [nodes]
    right behind the node ([nodes.indexOf(node) + 1], the node sitting at
    index [y] of a tree without shared nodes), and the outer loop goes on
    with them at [y + 1] and [y + 2].

    The recursion follows the array as it grows, so it is not structural:
    [fuel] bounds the depth of the calls, [None] is running out of it. *)
Fixpoint walk (fuel : nat) (nodes : list AstNode) : option (list AstNode) :=
  match fuel with
  | O => None
  | S fuel' =>
      match nodes with
      | [] => Some []
      | AstString s :: rest => cons (AstString s) <$> walk fuel' rest
      | AstElement c st p ch :: rest =>
          match walk fuel' ch with
          | None => None
          | Some ch' =>
              match scan_children c ch' with
              | (kept, None) =>
                  cons (AstElement c st p kept) <$> walk fuel' rest
              | (kept, Some (child, tail)) =>
                  cons (AstElement c st p kept) <$>
                    walk fuel' (child :: AstElement c st p tail :: rest)
              end
          end
      end
  end.

(** [documentElements.length !== 1] throws, otherwise [documentElements[0]]
    is returned. *)
Definition single_root (documentElements : list AstNode)
  : Result RepairError AstNode :=
  match documentElements with
  | [root] => Returned root
  | _ => Thrown DXE030
  end.

Definition bumpInvalidChildrenToAncestry_fuel (fuel : nat) (node : AstNode)
  : option (Result RepairError AstNode) :=
  single_root <$> walk fuel [node].

(** A measure that every splice decreases: an element weighs one more than
    three times its children. *)
Fixpoint weight (n : AstNode) : nat :=
  match n with
  | AstString _ => 1
  | AstElement _ _ _ ch => S (3 * list_sum (map weight ch))
  end.

Definition weights (l : list AstNode) : nat := list_sum (map weight l).

(** The repair, run with fuel that always suffices ([walk_total] below). *)
Definition bumpInvalidChildrenToAncestry (node : AstNode)
  : option (Result RepairError AstNode) :=
  bumpInvalidChildrenToAncestry_fuel (S (weights [node])) node.

(** The accepted-children invariant at one node and everywhere below it. *)
Fixpoint valid_tree (n : AstNode) : bool :=
  match n with
  | AstString _ => true
  | AstElement c _ _ ch => forallb (child_is_valid c) ch && forallb valid_tree ch
  end.

(** The raw text segments of a tree, left to right. *)
Fixpoint leaf_text (n : AstNode) : list string :=
  match n with
  | AstString s => [s]
  | AstElement _ _ _ ch => concat (map leaf_text ch)
  end.

Definition leaf_texts (l : list AstNode) : list string := concat (map leaf_text l).

(** The leaves of a tree, left to right: its strings and its elements
    without children. *)
Fixpoint leaves (n : AstNode) : list AstNode :=
  match n with
  | AstString _ => [n]
  | AstElement _ _ _ ch =>
      match ch with
      | [] => [n]
      | _ :: _ => concat (map leaves ch)
      end
  end.

Definition leaves_of (l : list AstNode) : list AstNode := concat (map leaves l).

(** The elements of a tree that have children, each by its component, style
    and props. *)
Fixpoint parents (n : AstNode) : list (AstComponent * Style * Props) :=
  match n with
  | AstString _ => []
  | AstElement c st p ch =>
      match ch with
      | [] => []
      | _ :: _ => (c, st, p) :: concat (map parents ch)
      end
  end.

Definition parents_of (l : list AstNode) : list (AstComponent * Style * Props) :=
  concat (map parents l).

(** An element without children that the cuts can leave behind in [nodes]:
    an element of [nodes] that had children and lost them all to a splice,
    or a clone [{ ...node, children: [] }] of such an element. *)
Definition emptied_by_cut (nodes : list AstNode) (x : AstNode) : Prop :=
  ∃ c st p, x = AstElement c st p [] ∧ (c, st, p) ∈ parents_of nodes.

(** ** Facts about the scan *)

Lemma scan_children_none parent l kept :
  scan_children parent l = (kept, None) →
  kept = l ∧ forallb (child_is_valid parent) l = true.
Proof.
  revert kept. induction l as [|x l IH]; intros kept; simpl.
  - intros [= <-]. done.
  - destruct (child_is_valid parent x) eqn:Hx; [|discriminate].
    destruct (scan_children parent l) as [k c] eqn:Hs.
    intros [= <- ->]. destruct (IH k eq_refl) as [-> ->]. done.
Qed.

Lemma scan_children_some parent l kept child tail :
  scan_children parent l = (kept, Some (child, tail)) →
  l = kept ++ child :: tail ∧
  forallb (child_is_valid parent) kept = true ∧
  child_is_valid parent child = false.
Proof.
  revert kept. induction l as [|x l IH]; intros kept; simpl.
  - discriminate.
  - destruct (child_is_valid parent x) eqn:Hx.
    + destruct (scan_children parent l) as [k c] eqn:Hs.
      intros [= <- ->]. destruct (IH k eq_refl) as (-> & Hk & Hc).
      simpl. rewrite Hx, Hk. done.
    + intros [= <- <- <-]. done.
Qed.

(** ** Termination: fuel above the weight of the array suffices *)

Lemma weight_pos n : 1 ≤ weight n.
Proof. destruct n; simpl; lia. Qed.

Lemma weights_cons n l : weights (n :: l) = weight n + weights l.
Proof. reflexivity. Qed.

Lemma weights_app l1 l2 : weights (l1 ++ l2) = weights l1 + weights l2.
Proof. unfold weights. rewrite map_app, list_sum_app. done. Qed.

Lemma walk_total_weight fuel nodes :
  weights nodes < fuel →
  ∃ r, walk fuel nodes = Some r ∧ weights r ≤ weights nodes.
Proof.
  revert nodes. induction fuel as [|fuel IH]; intros nodes Hlt; [lia|].
  destruct nodes as [|[s|c st p ch] rest]; simpl.
  - exists []. done.
  - rewrite weights_cons in Hlt. simpl in Hlt.
    destruct (IH rest) as (r & -> & Hr); [lia|].
    exists (AstString s :: r). split; [done|].
    rewrite !weights_cons. simpl. lia.
  - rewrite weights_cons in Hlt. simpl in Hlt. fold (weights ch) in Hlt.
    destruct (IH ch) as (ch' & -> & Hch'); [lia|].
    destruct (scan_children c ch') as [kept [[child tail]|]] eqn:Hs.
    + apply scan_children_some in Hs as (-> & _ & _).
      rewrite weights_app, weights_cons in Hch'.
      pose proof (weight_pos child).
      destruct (IH (child :: AstElement c st p tail :: rest)) as (r & -> & Hr).
      { rewrite !weights_cons. simpl. fold (weights tail). lia. }
      exists (AstElement c st p kept :: r). split; [done|].
      rewrite !weights_cons in *. simpl in *.
      fold (weights tail) in Hr. fold (weights kept). fold (weights ch). lia.
    + apply scan_children_none in Hs as (-> & _).
      destruct (IH rest) as (r & -> & Hr); [lia|].
      exists (AstElement c st p ch' :: r). split; [done|].
      rewrite !weights_cons. simpl. fold (weights ch'). fold (weights ch). lia.
Qed.

Lemma walk_total nodes : is_Some (walk (S (weights nodes)) nodes).
Proof.
  destruct (walk_total_weight (S (weights nodes)) nodes) as (r & Hr & _); [lia|].
  by exists r.
Qed.

(** More fuel never changes a result. *)
Lemma walk_fuel_mono fuel fuel' nodes r :
  walk fuel nodes = Some r → fuel ≤ fuel' → walk fuel' nodes = Some r.
Proof.
  revert fuel' nodes r. induction fuel as [|fuel IH]; intros fuel' nodes r; [done|].
  intros Hw Hle. destruct fuel' as [|fuel']; [lia|].
  assert (Hle' : fuel ≤ fuel') by lia.
  destruct nodes as [|[s|c st p ch] rest]; simpl in *; [done| |].
  - destruct (walk fuel rest) as [r'|] eqn:Hr; [|done].
    by rewrite (IH fuel' rest r' Hr Hle').
  - destruct (walk fuel ch) as [ch'|] eqn:Hch; [|done].
    rewrite (IH fuel' ch ch' Hch Hle').
    destruct (scan_children c ch') as [kept [[child tail]|]].
    + destruct (walk fuel (child :: _ :: rest)) as [r'|] eqn:Hr; [|done].
      by rewrite (IH fuel' _ r' Hr Hle').
    + destruct (walk fuel rest) as [r'|] eqn:Hr; [|done].
      by rewrite (IH fuel' rest r' Hr Hle').
Qed.

Lemma bump_fuel_enough fuel node :
  weights [node] < fuel →
  bumpInvalidChildrenToAncestry_fuel fuel node = bumpInvalidChildrenToAncestry node.
Proof.
  intros Hlt. unfold bumpInvalidChildrenToAncestry, bumpInvalidChildrenToAncestry_fuel.
  destruct (walk_total [node]) as [r Hr]. rewrite Hr.
  rewrite (walk_fuel_mono _ fuel _ _ Hr); [done|lia].
Qed.

(** ** What a walk leaves behind *)

Lemma walk_valid fuel nodes r :
  walk fuel nodes = Some r → forallb valid_tree r = true.
Proof.
  revert nodes r. induction fuel as [|fuel IH]; intros nodes r; [done|].
  destruct nodes as [|[s|c st p ch] rest]; simpl.
  - by intros [= <-].
  - destruct (walk fuel rest) as [r'|] eqn:Hr; [|done].
    intros [= <-]. simpl. eauto.
  - destruct (walk fuel ch) as [ch'|] eqn:Hch; [|done].
    pose proof (IH _ _ Hch) as Hvalid.
    destruct (scan_children c ch') as [kept [[child tail]|]] eqn:Hs.
    + apply scan_children_some in Hs as (-> & Hkept & _).
      destruct (walk fuel (child :: _ :: rest)) as [r'|] eqn:Hr; [|done].
      intros [= <-]. simpl. rewrite Hkept, (IH _ _ Hr).
      rewrite forallb_app in Hvalid. apply andb_true_iff in Hvalid as [-> _]. done.
    + apply scan_children_none in Hs as (-> & Hkept).
      destruct (walk fuel rest) as [r'|] eqn:Hr; [|done].
      intros [= <-]. simpl. rewrite Hkept, Hvalid, (IH _ _ Hr). done.
Qed.

Lemma leaf_texts_cons n l : leaf_texts (n :: l) = leaf_text n ++ leaf_texts l.
Proof. reflexivity. Qed.

Lemma leaf_texts_app l1 l2 : leaf_texts (l1 ++ l2) = leaf_texts l1 ++ leaf_texts l2.
Proof. unfold leaf_texts. by rewrite map_app, concat_app. Qed.

Lemma walk_leaf_texts fuel nodes r :
  walk fuel nodes = Some r → leaf_texts r = leaf_texts nodes.
Proof.
  revert nodes r. induction fuel as [|fuel IH]; intros nodes r; [done|].
  destruct nodes as [|[s|c st p ch] rest]; simpl.
  - by intros [= <-].
  - destruct (walk fuel rest) as [r'|] eqn:Hr; [|done].
    intros [= <-]. rewrite !leaf_texts_cons, (IH _ _ Hr). done.
  - destruct (walk fuel ch) as [ch'|] eqn:Hch; [|done].
    pose proof (IH _ _ Hch) as Hleaf.
    destruct (scan_children c ch') as [kept [[child tail]|]] eqn:Hs.
    + apply scan_children_some in Hs as (-> & _ & _).
      destruct (walk fuel (child :: _ :: rest)) as [r'|] eqn:Hr; [|done].
      intros [= <-]. rewrite !leaf_texts_cons, (IH _ _ Hr), !leaf_texts_cons.
      simpl. fold (leaf_texts kept). fold (leaf_texts tail). fold (leaf_texts ch).
      rewrite <- Hleaf, leaf_texts_app, leaf_texts_cons.
      by rewrite <- !app_assoc.
    + apply scan_children_none in Hs as (-> & _).
      destruct (walk fuel rest) as [r'|] eqn:Hr; [|done].
      intros [= <-]. rewrite !leaf_texts_cons, (IH _ _ Hr). simpl.
      fold (leaf_texts ch'). fold (leaf_texts ch). by rewrite Hleaf.
Qed.

Lemma walk_nonempty fuel n rest r :
  walk fuel (n :: rest) = Some r → r ≠ [].
Proof.
  destruct fuel as [|fuel]; [done|]. destruct n as [s|c st p ch]; simpl.
  - destruct (walk fuel rest); [|done]. by intros [= <-].
  - destruct (walk fuel ch) as [ch'|]; [|done].
    destruct (scan_children c ch') as [kept [[child tail]|]];
      (destruct (walk fuel _); [|done]); by intros [= <-].
Qed.

Lemma leaves_of_cons n l : leaves_of (n :: l) = leaves n ++ leaves_of l.
Proof. reflexivity. Qed.

Lemma leaves_of_app l1 l2 : leaves_of (l1 ++ l2) = leaves_of l1 ++ leaves_of l2.
Proof. unfold leaves_of. by rewrite map_app, concat_app. Qed.

(** An element has at least the leaves of its children: exactly those, or
    itself when it has no children. *)
Lemma leaves_of_children c st p ch :
  leaves_of ch `sublist_of` leaves (AstElement c st p ch).
Proof. destruct ch; simpl; [apply sublist_nil_l|done]. Qed.

(** A walk keeps every leaf, in order; it may add elements without
    children, the clones a cut leaves empty. *)
Lemma walk_leaves fuel nodes r :
  walk fuel nodes = Some r → leaves_of nodes `sublist_of` leaves_of r.
Proof.
  revert nodes r. induction fuel as [|fuel IH]; intros nodes r; [done|].
  destruct nodes as [|[s|c st p ch] rest]; simpl.
  - by intros [= <-].
  - destruct (walk fuel rest) as [r'|] eqn:Hr; [|done].
    intros [= <-]. rewrite !leaves_of_cons. apply sublist_app; eauto.
  - destruct (walk fuel ch) as [ch'|] eqn:Hch; [|done].
    pose proof (IH _ _ Hch) as Hleaves.
    assert (Hnode : leaves (AstElement c st p ch) `sublist_of`
                    match ch' with
                    | [] => [AstElement c st p ch']
                    | _ :: _ => leaves_of ch'
                    end).
    { destruct ch as [|x ch].
      - destruct fuel; [done|]. simpl in Hch. by injection Hch as <-.
      - pose proof (walk_nonempty _ _ _ _ Hch). by destruct ch'. }
    destruct (scan_children c ch') as [kept [[child tail]|]] eqn:Hs.
    + apply scan_children_some in Hs as (-> & _ & _).
      destruct (walk fuel (child :: _ :: rest)) as [r'|] eqn:Hr; [|done].
      intros [= <-]. apply IH in Hr.
      rewrite !leaves_of_cons in *.
      assert (Hch' : leaves (AstElement c st p ch)
                     `sublist_of` leaves_of (kept ++ child :: tail)).
      { by destruct kept. }
      rewrite leaves_of_app, leaves_of_cons in Hch'.
      etrans; [|apply sublist_app; [reflexivity|exact Hr]].
      etrans; [apply sublist_app; [exact Hch'|reflexivity]|].
      rewrite <- !app_assoc.
      apply sublist_app; [apply leaves_of_children|].
      apply sublist_app; [done|].
      apply sublist_app; [apply leaves_of_children|done].
    + apply scan_children_none in Hs as (-> & _).
      destruct (walk fuel rest) as [r'|] eqn:Hr; [|done].
      intros [= <-]. rewrite !leaves_of_cons.
      apply sublist_app; [|eauto]. by destruct ch'.
Qed.

Lemma bump_returned node root :
  bumpInvalidChildrenToAncestry node = Some (Returned root) →
  walk (S (weights [node])) [node] = Some [root].
Proof.
  unfold bumpInvalidChildrenToAncestry, bumpInvalidChildrenToAncestry_fuel.
  destruct (walk _ [node]) as [[|x [|y l]]|]; simpl; try done.
  by intros [= <-].
Qed.

(** ** A valid tree is left as it is *)

Lemma scan_children_valid parent l :
  forallb (child_is_valid parent) l = true → scan_children parent l = (l, None).
Proof.
  induction l as [|x l IH]; simpl; [done|].
  intros [-> Hl]%andb_true_iff. by rewrite (IH Hl).
Qed.

Lemma walk_valid_fixed fuel nodes :
  weights nodes < fuel → forallb valid_tree nodes = true →
  walk fuel nodes = Some nodes.
Proof.
  revert nodes. induction fuel as [|fuel IH]; intros nodes Hlt Hvalid; [lia|].
  destruct nodes as [|[s|c st p ch] rest]; simpl in *; [done| |].
  - rewrite weights_cons in Hlt. simpl in Hlt. rewrite IH; [done|lia|done].
  - rewrite weights_cons in Hlt. simpl in Hlt. fold (weights ch) in Hlt.
    apply andb_true_iff in Hvalid as [[Hch Hbelow]%andb_true_iff Hrest].
    rewrite (IH ch); [|lia|done].
    rewrite (scan_children_valid _ _ Hch).
    rewrite (IH rest); [done|lia|done].
Qed.

(** Repairing a repaired tree changes nothing. *)
Lemma repair_idempotent node root :
  bumpInvalidChildrenToAncestry node = Some (Returned root) →
  bumpInvalidChildrenToAncestry root = Some (Returned root).
Proof.
  intros Hb. apply bump_returned, walk_valid in Hb.
  unfold bumpInvalidChildrenToAncestry, bumpInvalidChildrenToAncestry_fuel.
  rewrite walk_valid_fixed; [done|lia|done].
Qed.

(** ** The three properties of the repair *)

(** C2. Structural closure: when the repair returns a root, every node of
    the returned tree has only accepted children: element children of a type
    listed by the node's component, strings only under a component with
    mixed content. *)
Theorem repair_establishes_invariant node root :
  bumpInvalidChildrenToAncestry node = Some (Returned root) →
  valid_tree root = true.
Proof.
  intros Hb. apply bump_returned, walk_valid in Hb.
  simpl in Hb. by rewrite andb_true_r in Hb.
Qed.

(** ** Lists with elements put in between *)

Lemma padded_refl {A} (P : A → Prop) l : padded P l l.
Proof. induction l; constructor; done. Qed.

Lemma padded_mono {A} (P Q : A → Prop) l l' :
  (∀ x, P x → Q x) → padded P l l' → padded Q l l'.
Proof. intros HPQ. induction 1; constructor; auto. Qed.

Lemma padded_app {A} (P : A → Prop) l1 l1' l2 l2' :
  padded P l1 l1' → padded P l2 l2' → padded P (l1 ++ l2) (l1' ++ l2').
Proof. intros H1 H2. induction H1; simpl; try constructor; auto. Qed.

Lemma padded_trans {A} (P : A → Prop) l l' l'' :
  padded P l l' → padded P l' l'' → padded P l l''.
Proof.
  intros H1 H2. revert l H1.
  induction H2 as [|x l' l'' H2 IH|x l' l'' Hx H2 IH]; intros l H1.
  - done.
  - inversion H1; subst; constructor; auto.
  - constructor; auto.
Qed.

Lemma padded_sublist {A} (P : A → Prop) l l' : padded P l l' → l `sublist_of` l'.
Proof. induction 1; constructor; done. Qed.

Lemma padded_length {A} (P : A → Prop) l l' :
  padded P l l' → length l' = length l → l' = l.
Proof.
  induction 1 as [|x l l' H IH|x l l' Hx H IH]; simpl; intros Hlen.
  - done.
  - f_equal. apply IH. lia.
  - apply padded_sublist, sublist_length in H. lia.
Qed.

(** ** The elements a cut empties *)

Lemma parents_of_cons n l : parents_of (n :: l) = parents n ++ parents_of l.
Proof. reflexivity. Qed.

Lemma parents_of_app l1 l2 :
  parents_of (l1 ++ l2) = parents_of l1 ++ parents_of l2.
Proof. unfold parents_of. by rewrite map_app, concat_app. Qed.

Lemma parents_element c st p x ch :
  parents (AstElement c st p (x :: ch)) = (c, st, p) :: parents_of (x :: ch).
Proof. reflexivity. Qed.

Lemma parents_subseteq c st p ch ch' :
  ch ≠ [] →
  parents (AstElement c st p ch') ⊆ (c, st, p) :: parents_of ch' →
  parents_of ch' ⊆ parents_of ch →
  parents (AstElement c st p ch') ⊆ parents (AstElement c st p ch).
Proof.
  intros Hch Hown Hbelow. destruct ch as [|x ch]; [done|].
  rewrite parents_element. intros y Hy. apply Hown in Hy.
  apply elem_of_cons in Hy as [->|Hy]; [by left|right; by apply Hbelow].
Qed.

Lemma parents_own c st p ch :
  parents (AstElement c st p ch) ⊆ (c, st, p) :: parents_of ch.
Proof. destruct ch; [apply list_subseteq_nil|done]. Qed.

Lemma walk_nil fuel r : walk fuel [] = Some r → r = [].
Proof. destruct fuel; [done|]. simpl. by intros [= <-]. Qed.

(** A walk gives children to no element: the elements with children after
    it are elements that had children before it, or their clones. *)
(** Membership in lists put together with [++] and [::]. *)
Ltac members :=
  repeat intros ?; rewrite ?elem_of_app, ?elem_of_cons in *; tauto.

Lemma walk_parents fuel nodes r :
  walk fuel nodes = Some r → parents_of r ⊆ parents_of nodes.
Proof.
  revert nodes r. induction fuel as [|fuel IH]; intros nodes r; [done|].
  destruct nodes as [|[s|c st p ch] rest]; simpl.
  - by intros [= <-].
  - destruct (walk fuel rest) as [r'|] eqn:Hr; [|done].
    intros [= <-]. rewrite !parents_of_cons. simpl. by apply IH.
  - destruct (walk fuel ch) as [ch'|] eqn:Hch; [|done].
    pose proof (IH _ _ Hch) as Hbelow.
    destruct (scan_children c ch') as [kept [[child tail]|]] eqn:Hs.
    + apply scan_children_some in Hs as (-> & _ & _).
      destruct (walk fuel (child :: _ :: rest)) as [r'|] eqn:Hr; [|done].
      intros [= <-]. apply IH in Hr.
      assert (Hch' : ch ≠ []).
      { intros ->. apply walk_nil in Hch. by destruct kept. }
      destruct ch as [|x ch]; [done|].
      rewrite !parents_of_cons in *. rewrite parents_element.
      rewrite parents_of_app, parents_of_cons in Hbelow.
      pose proof (parents_own c st p kept) as Hkept.
      pose proof (parents_own c st p tail) as Htail.
      intros y Hy. apply elem_of_app in Hy as [Hy|Hy].
      * apply Hkept in Hy. apply elem_of_app. left.
        apply elem_of_cons in Hy as [->|Hy]; [by left|right].
        apply Hbelow. members.
      * apply Hr in Hy. rewrite !elem_of_app in Hy.
        destruct Hy as [Hy|[Hy|Hy]].
        -- apply elem_of_app. left. right. apply Hbelow. members.
        -- apply Htail in Hy. apply elem_of_app. left.
           apply elem_of_cons in Hy as [->|Hy]; [by left|right].
           apply Hbelow. members.
        -- apply elem_of_app. by right.
    + apply scan_children_none in Hs as (-> & _).
      destruct (walk fuel rest) as [r'|] eqn:Hr; [|done].
      intros [= <-]. apply IH in Hr. rewrite !parents_of_cons.
      assert (parents (AstElement c st p ch') ⊆ parents (AstElement c st p ch)).
      { destruct ch as [|x ch].
        - apply walk_nil in Hch as ->. done.
        - apply parents_subseteq; [done|apply parents_own|done]. }
      intros y [Hy|Hy]%elem_of_app; apply elem_of_app; [left|right]; auto.
Qed.

Lemma parents_of_children c st p x ch rest :
  parents_of (x :: ch) ⊆ parents_of (AstElement c st p (x :: ch) :: rest).
Proof.
  intros y Hy. change (y ∈ ((c, st, p) :: parents_of (x :: ch)) ++ parents_of rest).
  apply elem_of_app. left. by right.
Qed.

Lemma padded_emptied nodes nodes' l l' :
  parents_of nodes ⊆ parents_of nodes' →
  padded (emptied_by_cut nodes) l l' → padded (emptied_by_cut nodes') l l'.
Proof.
  intros Hsub. apply padded_mono.
  intros x (c & st & p & -> & Hin). exists c, st, p. auto.
Qed.

(** The leaves of the children of an element are its leaves, short of the
    element itself when it has no children, which a cut emptied if the
    element had children before. *)
Lemma leaves_padded nodes c st p ch :
  (ch = [] → (c, st, p) ∈ parents_of nodes) →
  padded (emptied_by_cut nodes) (leaves_of ch) (leaves (AstElement c st p ch)).
Proof.
  destruct ch as [|x ch]; intros Hin.
  - apply padded_add; [|constructor]. exists c, st, p. auto.
  - apply padded_refl.
Qed.

(** A walk keeps the leaves, in their order, and what it adds are elements
    that a cut emptied. *)
Lemma walk_padded fuel nodes r :
  walk fuel nodes = Some r →
  padded (emptied_by_cut nodes) (leaves_of nodes) (leaves_of r).
Proof.
  revert nodes r. induction fuel as [|fuel IH]; intros nodes r; [done|].
  destruct nodes as [|[s|c st p ch] rest]; simpl.
  - intros [= <-]. constructor.
  - destruct (walk fuel rest) as [r'|] eqn:Hr; [|done].
    intros [= <-]. rewrite !leaves_of_cons. simpl. constructor.
    eapply padded_emptied; [|by apply IH]. done.
  - destruct (walk fuel ch) as [ch'|] eqn:Hch; [|done].
    pose proof (IH _ _ Hch) as Hleaves.
    pose proof (walk_parents _ _ _ Hch) as Hbelow.
    destruct (scan_children c ch') as [kept [[child tail]|]] eqn:Hs.
    + apply scan_children_some in Hs as (-> & _ & _).
      destruct (walk fuel (child :: _ :: rest)) as [r'|] eqn:Hr; [|done].
      intros [= <-]. apply IH in Hr.
      destruct ch as [|x ch]; [apply walk_nil in Hch; by destruct kept|].
      set (nodes := AstElement c st p (x :: ch) :: rest).
      assert (Hown : (c, st, p) ∈ parents_of nodes) by (by left).
      assert (Hsub : parents_of (kept ++ child :: tail) ⊆ parents_of nodes).
      { intros y Hy. by apply parents_of_children, Hbelow. }
      rewrite parents_of_app, parents_of_cons in Hsub.
      rewrite !leaves_of_cons in *. cbn [leaves] in Hr |- *.
      fold (leaves_of (x :: ch)). fold (leaves (AstElement c st p tail)) in Hr.
      fold (leaves (AstElement c st p kept)).
      rewrite leaves_of_app, leaves_of_cons in Hleaves.
      eapply padded_trans.
      { apply padded_app; [|apply padded_refl].
        eapply padded_emptied; [|exact Hleaves].
        apply parents_of_children. }
      rewrite <- !app_assoc.
      eapply padded_trans.
      { apply padded_app; [apply (leaves_padded nodes c st p kept); auto|].
        apply padded_app; [apply padded_refl|].
        apply padded_app; [apply (leaves_padded nodes c st p tail); auto|].
        apply padded_refl. }
      apply padded_app; [apply padded_refl|].
      eapply padded_emptied; [|exact Hr]. rewrite !parents_of_cons.
      pose proof (parents_own c st p tail) as Htail.
      intros y Hy. rewrite !elem_of_app in Hy. destruct Hy as [Hy|[Hy|Hy]].
      * apply Hsub. members.
      * apply Htail in Hy. apply elem_of_cons in Hy as [->|Hy]; [done|].
        apply Hsub. members.
      * unfold nodes. rewrite parents_of_cons. members.
    + apply scan_children_none in Hs as (-> & _).
      destruct (walk fuel rest) as [r'|] eqn:Hr; [|done].
      intros [= <-]. apply IH in Hr. rewrite !leaves_of_cons.
      apply padded_app.
      * destruct ch as [|x ch].
        -- apply walk_nil in Hch as ->. apply padded_refl.
        -- pose proof (walk_nonempty _ _ _ _ Hch). destruct ch' as [|x' ch']; [done|].
           eapply padded_emptied; [|exact Hleaves].
           apply parents_of_children.
      * eapply padded_emptied; [|exact Hr]. rewrite parents_of_cons. members.
Qed.

(** C3. Content under the repair: when the repair returns a root, the raw
    text segments of the returned tree are those of the input tree, in the
    same left-to-right order, hence also the same as a multiset; the leaves
    of the input tree, strings and elements without children, are leaves of
    the returned tree, in the same order; and what the returned tree has of
    other leaves are elements without children that a cut emptied, each
    with the component, style and props of an element of the input tree
    that had children.  The leaves are the same exactly when their number
    is. *)
Theorem repair_preserves_leaf_text node root :
  bumpInvalidChildrenToAncestry node = Some (Returned root) →
  leaf_text root = leaf_text node ∧
  list_to_set_disj (leaf_text root) =@{gmultiset string}
    list_to_set_disj (leaf_text node) ∧
  leaves node `sublist_of` leaves root ∧
  padded (emptied_by_cut [node]) (leaves node) (leaves root) ∧
  (length (leaves root) = length (leaves node) → leaves root = leaves node).
Proof.
  intros Hb. apply bump_returned in Hb.
  pose proof (walk_leaf_texts _ _ _ Hb) as Htext.
  pose proof (walk_padded _ _ _ Hb) as Hleaves.
  unfold leaf_texts in Htext. unfold leaves_of in Hleaves.
  simpl in Htext, Hleaves. rewrite !app_nil_r in Htext, Hleaves.
  rewrite Htext. repeat split; [by eapply padded_sublist|done|].
  exact (padded_length _ _ _ Hleaves).
Qed.

(** C4. Single root: the repair always finishes, and it either returns the
    one element left at the top level or throws DXE030 because the top level
    holds another number of elements; it returns nothing else. *)
Theorem repair_single_root_or_throws node :
  ∃ tops, walk (S (weights [node])) [node] = Some tops ∧
    ((∃ root, tops = [root] ∧
        bumpInvalidChildrenToAncestry node = Some (Returned root)) ∨
     (length tops ≠ 1 ∧
        bumpInvalidChildrenToAncestry node = Some (Thrown DXE030))).
Proof.
  destruct (walk_total [node]) as [tops Htops]. exists tops. split; [done|].
  unfold bumpInvalidChildrenToAncestry, bumpInvalidChildrenToAncestry_fuel.
  rewrite Htops. destruct tops as [|root [|second more]]; simpl.
  - by apply walk_nonempty in Htops.
  - left. by exists root.
  - right. split; [lia|done].
Qed.

(** ** The repair as a recursion on the tree *)

(** The siblings one element ends up as once its walked children [l] have
    been scanned, again and again: the element with the valid children at
    its head, then each invalid child followed by a clone with the children
    behind it.  [kept] holds, last first, the children passed so far. *)
Fixpoint chop (c : AstComponent) (st : Style) (p : Props)
    (kept : list AstNode) (l : list AstNode) : list AstNode :=
  match l with
  | [] => [AstElement c st p (rev kept)]
  | child :: tail =>
      if child_is_valid c child
      then chop c st p (child :: kept) tail
      else AstElement c st p (rev kept) :: child :: chop c st p [] tail
  end.

(** What one node of the array becomes: the children are repaired first,
    each to its siblings, and the element is cut around those that it does
    not accept. *)
Fixpoint repair (n : AstNode) : list AstNode :=
  match n with
  | AstString _ => [n]
  | AstElement c st p ch => chop c st p [] (concat (map repair ch))
  end.

Definition repairs (l : list AstNode) : list AstNode := concat (map repair l).

Lemma AstNode_nested_ind (Q : AstNode → Prop) :
  (∀ s, Q (AstString s)) →
  (∀ c st p ch, Forall Q ch → Q (AstElement c st p ch)) →
  ∀ n, Q n.
Proof.
  intros HS HE. fix IH 1. intros [s|c st p ch].
  - apply HS.
  - apply HE. induction ch as [|x ch IHch]; constructor.
    + apply IH.
    + exact IHch.
Qed.

Lemma repairs_cons n l : repairs (n :: l) = repair n ++ repairs l.
Proof. reflexivity. Qed.

Lemma chop_scan c st p kept l :
  chop c st p kept l
  = match scan_children c l with
    | (k, None) => [AstElement c st p (rev kept ++ k)]
    | (k, Some (child, tail)) =>
        AstElement c st p (rev kept ++ k) :: child :: chop c st p [] tail
    end.
Proof.
  revert kept. induction l as [|x l IH]; intros kept; simpl.
  - by rewrite app_nil_r.
  - destruct (child_is_valid c x) eqn:Hx.
    + rewrite IH. destruct (scan_children c l) as [k [[child tail]|]];
        simpl; by rewrite <- app_assoc.
    + by rewrite app_nil_r.
Qed.

Lemma repairs_valid l :
  Forall (λ n, repair n = [n]) l → repairs l = l.
Proof.
  induction 1 as [|x l Hx _ IH]; [done|].
  by rewrite repairs_cons, Hx, IH.
Qed.

(** A valid tree is its own repair. *)
Lemma repair_valid n : valid_tree n = true → repair n = [n].
Proof.
  induction n as [s|c st p ch IH] using AstNode_nested_ind; [done|].
  simpl. intros [Hch Hbelow]%andb_true_iff.
  fold (repairs ch). rewrite repairs_valid.
  - by rewrite chop_scan, (scan_children_valid _ _ Hch).
  - apply Forall_forall. intros x Hx.
    rewrite Forall_forall in IH. apply IH; [done|].
    rewrite forallb_forall in Hbelow. by apply Hbelow.
Qed.

Lemma repairs_valid_forest l : forallb valid_tree l = true → repairs l = l.
Proof.
  intros Hvalid. apply repairs_valid, Forall_forall. intros x Hx.
  apply repair_valid. rewrite forallb_forall in Hvalid. by apply Hvalid.
Qed.

(** The walk of the code computes this recursion. *)
Lemma walk_repairs fuel nodes r :
  walk fuel nodes = Some r → r = repairs nodes.
Proof.
  revert nodes r. induction fuel as [|fuel IH]; intros nodes r; [done|].
  destruct nodes as [|[s|c st p ch] rest]; simpl.
  - by intros [= <-].
  - destruct (walk fuel rest) as [r'|] eqn:Hr; [|done].
    intros [= <-]. by rewrite repairs_cons, (IH _ _ Hr).
  - destruct (walk fuel ch) as [ch'|] eqn:Hch; [|done].
    pose proof (walk_valid _ _ _ Hch) as Hvalid.
    apply IH in Hch as ->.
    rewrite repairs_cons. cbn [repair]. fold (repairs ch).
    rewrite chop_scan. cbn [rev app].
    destruct (scan_children c (repairs ch)) as [kept [[child tail]|]] eqn:Hs.
    + destruct (walk fuel (child :: _ :: rest)) as [r'|] eqn:Hr; [|done].
      intros [= <-]. apply IH in Hr as ->.
      apply scan_children_some in Hs as (Heq & _ & _).
      rewrite Heq, forallb_app in Hvalid. cbn [forallb] in Hvalid.
      apply andb_true_iff in Hvalid as [_ [Hchild Htail]%andb_true_iff].
      rewrite !repairs_cons, (repair_valid _ Hchild). cbn [repair].
      fold (repairs tail). by rewrite (repairs_valid_forest _ Htail).
    + destruct (walk fuel rest) as [r'|] eqn:Hr; [|done].
      intros [= <-]. by rewrite (IH _ _ Hr).
Qed.

(** What the walk of the whole tree comes to. *)
Lemma bump_single_root_repair node :
  bumpInvalidChildrenToAncestry node = Some (single_root (repair node)).
Proof.
  unfold bumpInvalidChildrenToAncestry, bumpInvalidChildrenToAncestry_fuel.
  destruct (walk_total [node]) as [r Hr]. rewrite Hr.
  apply walk_repairs in Hr as ->. unfold repairs. simpl.
  by rewrite app_nil_r.
Qed.

(** The repair is the recursion on the tree, with the check for a single
    root: the loops of the code and their splices compute [repair]. *)
Theorem bumpInvalidChildrenToAncestry_repair node :
  bumpInvalidChildrenToAncestry node = Some (single_root (repair node)).
Proof.
  unfold bumpInvalidChildrenToAncestry, bumpInvalidChildrenToAncestry_fuel.
  destruct (walk_total [node]) as [r Hr]. rewrite Hr.
  apply walk_repairs in Hr as ->. unfold repairs. simpl.
  by rewrite app_nil_r.
Qed.

(** A tree that already satisfies the invariant is returned as it is. *)
Theorem repair_keeps_valid_tree node :
  valid_tree node = true →
  bumpInvalidChildrenToAncestry node = Some (Returned node).
Proof.
  intros Hvalid.
  by rewrite bump_single_root_repair, (repair_valid _ Hvalid).
Qed.

(** The first sibling a node is repaired to is accepted by a parent exactly
    when the node is: a string stays the string, an element stays an
    element of its component. *)
Lemma repair_head parent n :
  ∃ n' more, repair n = n' :: more ∧
             child_is_valid parent n' = child_is_valid parent n.
Proof.
  destruct n as [s|c st p ch]; [by eexists _, _|].
  cbn [repair]. rewrite chop_scan.
  destruct (scan_children c _) as [k [[child tail]|]]; by eexists _, _.
Qed.

Lemma repairs_invalid parent l :
  forallb (child_is_valid parent) l = false →
  forallb (child_is_valid parent) (repairs l) = false.
Proof.
  induction l as [|x l IH]; [done|].
  rewrite repairs_cons, forallb_app. cbn [forallb].
  destruct (repair_head parent x) as (x' & more & -> & Hx').
  cbn [forallb]. rewrite Hx'.
  destruct (child_is_valid parent x); [|done].
  simpl. intros Hl. rewrite (IH Hl). by rewrite andb_false_r.
Qed.

Lemma chop_nonempty c st p kept l :
  ∃ first more, chop c st p kept l = first :: more.
Proof.
  revert kept. induction l as [|x l IH]; intros kept; simpl.
  - by eexists _, _.
  - destruct (child_is_valid c x); [apply IH|by eexists _, _].
Qed.

Lemma chop_invalid c st p kept l :
  forallb (child_is_valid c) l = false →
  ∃ first second third more, chop c st p kept l = first :: second :: third :: more.
Proof.
  revert kept. induction l as [|x l IH]; intros kept; [done|]. simpl.
  destruct (child_is_valid c x); simpl.
  - intros Hl. apply (IH _ Hl).
  - intros _. destruct (chop_nonempty c st p [] l) as (third & more & ->).
    by eexists _, _, _, _.
Qed.

(** A root with a child it does not accept cannot be repaired: the child
    has nowhere to go but the top level, and the repair throws. *)
Theorem repair_throws_on_invalid_child_of_root c st p ch :
  forallb (child_is_valid c) ch = false →
  bumpInvalidChildrenToAncestry (AstElement c st p ch) = Some (Thrown DXE030).
Proof.
  intros Hch. rewrite bump_single_root_repair. cbn [repair].
  fold (repairs ch).
  destruct (chop_invalid c st p [] (repairs ch) (repairs_invalid _ _ Hch))
    as (first & second & third & more & ->).
  done.
Qed.

(** When the repair returns, the root is the root it was given, with its
    component, style and props, and its children are the repaired children
    of that root, all of them: nothing left the root. *)
Theorem repair_returns_root_with_repaired_children c st p ch root :
  bumpInvalidChildrenToAncestry (AstElement c st p ch) = Some (Returned root) →
  root = AstElement c st p (repairs ch) ∧
  forallb (child_is_valid c) (repairs ch) = true.
Proof.
  rewrite bump_single_root_repair. cbn [repair]. fold (repairs ch).
  rewrite chop_scan. cbn [rev app].
  destruct (scan_children c (repairs ch)) as [k [[child tail]|]] eqn:Hs; [done|].
  apply scan_children_none in Hs as [-> Hvalid]. by intros [= <-].
Qed.

(** ** The elements of the repaired tree *)

(** What the elements of a tree are made of: their component, style and
    props. *)
Fixpoint labels (n : AstNode) : list (AstComponent * Style * Props) :=
  match n with
  | AstString _ => []
  | AstElement c st p ch => (c, st, p) :: concat (map labels ch)
  end.

Definition labels_of (l : list AstNode) : list (AstComponent * Style * Props) :=
  concat (map labels l).

Lemma labels_of_cons n l : labels_of (n :: l) = labels n ++ labels_of l.
Proof. reflexivity. Qed.

Lemma labels_of_app l1 l2 : labels_of (l1 ++ l2) = labels_of l1 ++ labels_of l2.
Proof. unfold labels_of. by rewrite map_app, concat_app. Qed.

Lemma walk_labels fuel nodes r :
  walk fuel nodes = Some r → ∀ x, x ∈ labels_of r ↔ x ∈ labels_of nodes.
Proof.
  revert nodes r. induction fuel as [|fuel IH]; intros nodes r; [done|].
  destruct nodes as [|[s|c st p ch] rest]; simpl.
  - by intros [= <-].
  - destruct (walk fuel rest) as [r'|] eqn:Hr; [|done].
    intros [= <-] x. rewrite !labels_of_cons. cbn [labels app].
    by apply IH.
  - destruct (walk fuel ch) as [ch'|] eqn:Hch; [|done].
    pose proof (IH _ _ Hch) as Hlabels.
    destruct (scan_children c ch') as [kept [[child tail]|]] eqn:Hs.
    + apply scan_children_some in Hs as (-> & _ & _).
      destruct (walk fuel (child :: _ :: rest)) as [r'|] eqn:Hr; [|done].
      intros [= <-] x. pose proof (IH _ _ Hr x) as Hr'.
      specialize (Hlabels x).
      rewrite !labels_of_cons in *. cbn [labels] in *.
      fold (labels_of kept) (labels_of tail) (labels_of ch) in *.
      rewrite labels_of_app, labels_of_cons in Hlabels.
      clear IH. rewrite ?elem_of_app, ?elem_of_cons in *. tauto.
    + apply scan_children_none in Hs as (-> & _).
      destruct (walk fuel rest) as [r'|] eqn:Hr; [|done].
      intros [= <-] x. pose proof (IH _ _ Hr x) as Hr'.
      specialize (Hlabels x).
      rewrite !labels_of_cons. cbn [labels].
      fold (labels_of ch') (labels_of ch).
      clear IH. rewrite ?elem_of_app, ?elem_of_cons in *. tauto.
Qed.

(** The repair invents no element and forgets none: the elements of the
    returned tree have the component, style and props of elements of the
    input tree, and every element of the input tree still stands in the
    returned tree, itself or as its clones. *)
Theorem repair_keeps_labels node root :
  bumpInvalidChildrenToAncestry node = Some (Returned root) →
  ∀ x, x ∈ labels root ↔ x ∈ labels node.
Proof.
  intros Hb x. apply bump_returned in Hb.
  pose proof (walk_labels _ _ _ Hb x) as Hx.
  unfold labels_of in Hx. simpl in Hx. by rewrite !app_nil_r in Hx.
Qed.

End Repair.

(** ** The repair on concrete documents *)

Definition Text : AstComponent :=
  {| type := "Text"; children := []; mixed := true |}.
Definition Table : AstComponent :=
  {| type := "Table"; children := []; mixed := false |}.
Definition Paragraph : AstComponent :=
  {| type := "Paragraph"; children := ["Text"%string]; mixed := false |}.
Definition Section_ : AstComponent :=
  {| type := "Section"; children := ["Paragraph"%string; "Table"%string];
     mixed := false |}.

Definition el (c : AstComponent) (ch : list (@AstNode unit unit))
  : @AstNode unit unit :=
  AstElement c () () ch.
Definition str (s : string) : @AstNode unit unit := AstString s.

(** A paragraph that holds a table between two runs of text. *)
Definition paragraph_around_table : @AstNode unit unit :=
  el Paragraph [el Text [str "a"]; el Table []; el Text [str "b"]].

(** Inside a section the paragraph is split around the table. *)
Example repair_splits_paragraph :
  bumpInvalidChildrenToAncestry (el Section_ [paragraph_around_table])
  = Some (Returned (el Section_ [el Paragraph [el Text [str "a"]];
                                el Table [];
                                el Paragraph [el Text [str "b"]]])).
Proof. vm_compute. reflexivity. Qed.

(** At the top level the same split leaves three elements, and the repair
    throws. *)
Example repair_throws_at_root :
  bumpInvalidChildrenToAncestry paragraph_around_table = Some (Thrown DXE030).
Proof. vm_compute. reflexivity. Qed.

(** A cut at the last child leaves an empty clone behind the moved child:
    nodes without children can appear that the input did not have. *)
Example repair_leaves_empty_clone :
  bumpInvalidChildrenToAncestry
    (el Section_ [el Paragraph [el Text [str "a"]; el Table []]])
  = Some (Returned (el Section_ [el Paragraph [el Text [str "a"]];
                                el Table [];
                                el Paragraph []])).
Proof. vm_compute. reflexivity. Qed.

Lemma repair_establishes_invariant_witness :
  bumpInvalidChildrenToAncestry (el Section_ [paragraph_around_table])
  = Some (Returned (el Section_ [el Paragraph [el Text [str "a"]];
                                el Table [];
                                el Paragraph [el Text [str "b"]]])) ∧
  valid_tree (el Section_ [el Paragraph [el Text [str "a"]];
                           el Table [];
                           el Paragraph [el Text [str "b"]]]) = true.
Proof.
  split; [vm_compute; reflexivity|].
  apply (repair_establishes_invariant (el Section_ [paragraph_around_table])).
  vm_compute. reflexivity.
Defined.

(** A section whose paragraph ends in a table, and what the repair returns
    for it: the table moved behind the paragraph, and behind the table the
    clone of the paragraph, which got the children after the table, none. *)
Definition section_ending_in_table : @AstNode unit unit :=
  el Section_ [el Paragraph [el Text [str "a"]; el Table []]].

Definition section_with_emptied_clone : @AstNode unit unit :=
  el Section_ [el Paragraph [el Text [str "a"]]; el Table []; el Paragraph []].

Lemma repair_preserves_leaf_text_witness :
  leaf_text section_with_emptied_clone = leaf_text section_ending_in_table ∧
  list_to_set_disj (leaf_text section_with_emptied_clone)
  =@{gmultiset string} list_to_set_disj (leaf_text section_ending_in_table) ∧
  leaves section_ending_in_table `sublist_of` leaves section_with_emptied_clone ∧
  padded (emptied_by_cut [section_ending_in_table])
    (leaves section_ending_in_table) (leaves section_with_emptied_clone) ∧
  (length (leaves section_with_emptied_clone)
   = length (leaves section_ending_in_table) →
   leaves section_with_emptied_clone = leaves section_ending_in_table).
Proof.
  apply (repair_preserves_leaf_text section_ending_in_table
           section_with_emptied_clone).
  vm_compute. reflexivity.
Defined.

(** The leaves of that section are the text and the table; the repaired
    section has the emptied clone as a third leaf, so that the leaves before
    and after are not the same multiset. *)
Lemma repair_adds_childless_leaf :
  bumpInvalidChildrenToAncestry section_ending_in_table
  = Some (Returned section_with_emptied_clone) ∧
  leaves section_ending_in_table = [str "a"; el Table []] ∧
  leaves section_with_emptied_clone
  = [str "a"; el Table []; el Paragraph []] ∧
  ¬ leaves section_with_emptied_clone ≡ₚ leaves section_ending_in_table.
Proof.
  repeat split; try (vm_compute; reflexivity).
  intros Hsame%Permutation_length. discriminate Hsame.
Qed.

(** The section with the paragraph split around the table. *)
Definition section_repaired : @AstNode unit unit :=
  el Section_ [el Paragraph [el Text [str "a"]];
               el Table [];
               el Paragraph [el Text [str "b"]]].

Example repair_of_paragraph_around_table :
  repair paragraph_around_table
  = [el Paragraph [el Text [str "a"]];
     el Table [];
     el Paragraph [el Text [str "b"]]].
Proof. vm_compute. reflexivity. Qed.

Lemma repair_idempotent_witness :
  bumpInvalidChildrenToAncestry (el Section_ [paragraph_around_table])
  = Some (Returned section_repaired) ∧
  bumpInvalidChildrenToAncestry section_repaired
  = Some (Returned section_repaired).
Proof.
  split; [vm_compute; reflexivity|].
  apply (repair_idempotent (el Section_ [paragraph_around_table])).
  vm_compute. reflexivity.
Defined.

Lemma repair_keeps_valid_tree_witness :
  valid_tree section_repaired = true ∧
  bumpInvalidChildrenToAncestry section_repaired
  = Some (Returned section_repaired).
Proof.
  split; [reflexivity|].
  apply (repair_keeps_valid_tree section_repaired). reflexivity.
Defined.

Lemma repair_throws_on_invalid_child_of_root_witness :
  forallb (child_is_valid Paragraph)
    [el Text [str "a"]; el Table []; el Text [str "b"]] = false ∧
  bumpInvalidChildrenToAncestry
    (AstElement Paragraph () ()
       [el Text [str "a"]; el Table []; el Text [str "b"]])
  = Some (Thrown DXE030).
Proof.
  split; [reflexivity|].
  apply (repair_throws_on_invalid_child_of_root Paragraph () ()
           [el Text [str "a"]; el Table []; el Text [str "b"]]).
  reflexivity.
Defined.

Lemma repair_keeps_labels_witness :
  (Paragraph, (), ()) ∈ labels section_repaired
  ↔ (Paragraph, (), ()) ∈ labels (el Section_ [paragraph_around_table]).
Proof.
  apply (repair_keeps_labels (el Section_ [paragraph_around_table])
           section_repaired).
  vm_compute. reflexivity.
Defined.

Lemma repair_returns_root_with_repaired_children_witness :
  section_repaired
  = AstElement Section_ () () (repairs [paragraph_around_table]) ∧
  forallb (child_is_valid Section_) (repairs [paragraph_around_table]) = true.
Proof.
  apply (repair_returns_root_with_repaired_children Section_ () ()
           [paragraph_around_table] section_repaired).
  vm_compute. reflexivity.
Defined.

End Repair.

(** * JavaScript numbers, as far as the code looks at them *)

(** A number is NaN or a value.  The code at hand only asks whether a number
    is NaN and whether it is zero, and its tests use integers, so the values
    are taken in [Z]; the negative zero is kept apart because [Boolean]
    treats it like zero. *)
Inductive JsNumber : Type :=
| NaN
| NegativeZero
| Num (z : Z).

(** [Boolean(n)] on a number: false for [0], [-0] and [NaN]. *)
Definition number_truthy (n : JsNumber) : bool :=
  match n with
  | NaN | NegativeZero => false
  | Num z => negb (Z.eqb z 0)
  end.

(** [Number.isNaN(n)]. *)
Definition Number_isNaN (n : JsNumber) : bool :=
  match n with
  | NaN => true
  | _ => false
  end.

(** * The child flattener: [ensureFlatResolvedArray] *)

Module Flatten.

(** The promise an [async] function returns: when it settles, and how. *)
Record Settled (A : Type) : Type := mkSettled {
  settled_at : nat;
  outcome : Result string A
}.
Arguments mkSettled {A} settled_at outcome.
Arguments settled_at {A} s.
Arguments outcome {A} s.

Section Flatten.

(** [P], the type of a single child (an [AstNode] for the JSX pragma). *)
Context {P : Type}.

(** What can stand where children are expected: a single item, nothing, an
    array of such things, or a promise of such a thing.  A promise carries
    the time at which it settles; it is fulfilled with a value or rejected
    with a reason. *)
Inductive Child : Type :=
| Undefined
| Null
| Boolean (b : bool)
| Number (n : JsNumber)
| Str (s : string)
| Item (p : P)
| Array (items : list Child)
| Promise (settles : nat) (value : Child)
| Rejected (settles : nat) (reason : string).

(** [Boolean(x)], the predicate of [.filter(Boolean)]. *)
Definition truthy (x : Child) : bool :=
  match x with
  | Undefined | Null => false
  | Boolean b => b
  | Number n => number_truthy n
  | Str s => negb (String.eqb s "")
  | Item _ | Array _ | Promise _ _ | Rejected _ _ => true
  end.

(** [recursiveFlattenArray(flat, item)], called at time [now].

    [await item] unwraps a promise: the call goes on with the value once the
    promise is fulfilled, and it rejects when the promise is rejected.  What
    is not a promise is there at once.

    - not an array: [[...(await flat), iitem].filter(Boolean)];
    - an array: [[...(await flat), ...(await iitem.reduce(recursiveFlattenArray,
      Promise.resolve([])))]], where [flat] is awaited before the inner
      [reduce] starts.

    [reduce] calls the function on every element at once, each call getting
    the promise of the call before it as [flat]: that is [fold_left] at one
    starting time. *)
Fixpoint recursiveFlattenArray (now : nat) (flat : Settled (list Child))
    (item : Child) {struct item} : Settled (list Child) :=
  match item with
  | Promise settles value =>
      recursiveFlattenArray (Nat.max now settles) flat value
  | Rejected settles reason =>
      mkSettled (Nat.max now settles) (Thrown reason)
  | Array items =>
      let resumed := Nat.max now (settled_at flat) in
      match outcome flat with
      | Thrown reason => mkSettled resumed (Thrown reason)
      | Returned sofar =>
          let inner :=
            fold_left (recursiveFlattenArray resumed) items
              (mkSettled resumed (Returned [])) in
          let finished := Nat.max resumed (settled_at inner) in
          match outcome inner with
          | Thrown reason => mkSettled finished (Thrown reason)
          | Returned more => mkSettled finished (Returned (sofar ++ more))
          end
      end
  | iitem =>
      let resumed := Nat.max now (settled_at flat) in
      match outcome flat with
      | Thrown reason => mkSettled resumed (Thrown reason)
      | Returned sofar =>
          mkSettled resumed (Returned (List.filter truthy (sofar ++ [iitem])))
      end
  end.

(** [item !== undefined && item !== null]. *)
Definition is_given (item : Child) : bool :=
  match item with
  | Undefined | Null => false
  | _ => true
  end.

(** [ensureFlatResolvedArray(children)], called at time [now]:
    [await [children].filter(...).reduce(recursiveFlattenArray,
    Promise.resolve([]))]. *)
Definition ensureFlatResolvedArray (now : nat) (children : Child)
  : Settled (list Child) :=
  fold_left (recursiveFlattenArray now) (List.filter is_given [children])
    (mkSettled now (Returned [])).

(** ** The declared children *)

(** The items of [children] in the order they are written: arrays are read
    left to right, a promise stands for its value.  Settle times play no
    part. *)
Fixpoint declared (children : Child) : list Child :=
  match children with
  | Array items => concat (map declared items)
  | Promise _ value => declared value
  | Rejected _ _ => []
  | item => [item]
  end.

(** No promise in [children] is rejected. *)
Fixpoint rejection_free (children : Child) : bool :=
  match children with
  | Array items => forallb rejection_free items
  | Promise _ value => rejection_free value
  | Rejected _ _ => false
  | _ => true
  end.

(** The time at which the last promise of [children] settles. *)
Fixpoint latest (children : Child) : nat :=
  match children with
  | Array items => max_list (map latest items)
  | Promise settles value => Nat.max settles (latest value)
  | Rejected settles _ => settles
  | _ => 0
  end.

(** The same children with other settle times. *)
Fixpoint retime (f : nat → nat) (children : Child) : Child :=
  match children with
  | Array items => Array (map (retime f) items)
  | Promise settles value => Promise (f settles) (retime f value)
  | Rejected settles reason => Rejected (f settles) reason
  | item => item
  end.

(** ** Induction over nested children *)

Lemma Child_nested_ind (Q : Child → Prop) :
  Q Undefined → Q Null → (∀ b, Q (Boolean b)) → (∀ n, Q (Number n)) →
  (∀ s, Q (Str s)) → (∀ p, Q (Item p)) →
  (∀ items, Forall Q items → Q (Array items)) →
  (∀ settles value, Q value → Q (Promise settles value)) →
  (∀ settles reason, Q (Rejected settles reason)) →
  ∀ c, Q c.
Proof.
  intros HU HN HB HNum HS HI HA HP HR. fix IH 1.
  intros [ | | b | n | s | p | items | settles value | settles reason].
  - exact HU.
  - exact HN.
  - apply HB.
  - apply HNum.
  - apply HS.
  - apply HI.
  - apply HA. induction items as [|x items IHitems]; constructor.
    + apply IH.
    + exact IHitems.
  - apply HP, IH.
  - apply HR.
Qed.

Definition all_truthy (l : list Child) : Prop := forallb truthy l = true.

Lemma filter_truthy_all l : all_truthy l → List.filter truthy l = l.
Proof.
  unfold all_truthy. induction l as [|x l IH]; simpl; [done|].
  intros [Hx Hl]%andb_true_iff. rewrite Hx. f_equal. auto.
Qed.

Lemma all_truthy_filter l : all_truthy (List.filter truthy l).
Proof.
  unfold all_truthy. induction l as [|x l IH]; simpl; [done|].
  destruct (truthy x) eqn:Hx; simpl; [rewrite Hx|]; done.
Qed.

Lemma all_truthy_app l1 l2 : all_truthy l1 → all_truthy l2 → all_truthy (l1 ++ l2).
Proof. unfold all_truthy. rewrite forallb_app. by intros -> ->. Qed.

(** ** Fulfilment: the flattened list *)

(** One step of the reduction, on children without a rejected promise: the
    accumulated list grows by the truthy declared items of [item]. *)
Lemma recursiveFlattenArray_returned item :
  ∀ now flat sofar,
    outcome flat = Returned sofar → all_truthy sofar →
    rejection_free item = true →
    outcome (recursiveFlattenArray now flat item)
    = Returned (sofar ++ List.filter truthy (declared item)).
Proof.
  induction item as [ | | b | n | s | p | items IH | settles value IH
                    | settles reason] using Child_nested_ind;
    intros now flat sofar Hflat Hdone Hfree; simpl in *;
    try (rewrite Hflat; simpl;
         rewrite List.filter_app, (filter_truthy_all sofar Hdone); simpl; done).
  - rewrite Hflat.
    set (resumed := Nat.max now (settled_at flat)).
    assert (Hfold : ∀ start acc,
      outcome start = Returned acc → all_truthy acc →
      outcome (fold_left (recursiveFlattenArray resumed) items start)
      = Returned (acc ++ List.filter truthy (concat (map declared items)))).
    { clear Hflat. induction IH as [|x items Hx _ IHitems]; intros start acc Hs Hacc.
      - simpl. by rewrite app_nil_r.
      - simpl in Hfree. apply andb_true_iff in Hfree as [Hfx Hfitems].
        simpl. rewrite (IHitems Hfitems _ (acc ++ List.filter truthy (declared x))).
        + by rewrite List.filter_app, app_assoc.
        + by apply Hx.
        + apply all_truthy_app; [done|apply all_truthy_filter]. }
    rewrite (Hfold (mkSettled resumed (Returned [])) [] eq_refl eq_refl). done.
  - by apply IH.
  - done.
Qed.

Lemma recursiveFlattenArray_returned_inv' item now flat sofar :
  outcome flat = Returned sofar → rejection_free item = true →
  ∃ l, outcome (recursiveFlattenArray now flat item) = Returned l.
Proof.
  revert now flat sofar.
  induction item as [ | | b | n | s | p | items IH | settles value IH
                    | settles reason] using Child_nested_ind;
    intros now flat sofar Hflat Hfree; simpl in *;
    try (rewrite Hflat; simpl; by eauto).
  - rewrite Hflat.
    set (resumed := Nat.max now (settled_at flat)).
    assert (Hfold : ∀ start acc,
      outcome start = Returned acc →
      ∃ acc', outcome (fold_left (recursiveFlattenArray resumed) items start)
              = Returned acc').
    { clear Hflat. induction IH as [|x items Hx _ IHitems]; intros start acc Hs.
      - simpl. eauto.
      - simpl in Hfree. apply andb_true_iff in Hfree as [Hfx Hfitems]. simpl.
        destruct (Hx resumed start acc Hs Hfx) as [acc' Hacc']. eauto. }
    destruct (Hfold (mkSettled resumed (Returned [])) [] eq_refl) as [acc' ->].
    simpl. eauto.
  - eauto.
  - done.
Qed.

(** Conversely a call is fulfilled only when [flat] is and no promise of
    [item] is rejected. *)
Lemma recursiveFlattenArray_returned_inv item :
  ∀ now flat l,
    outcome (recursiveFlattenArray now flat item) = Returned l →
    rejection_free item = true ∧ ∃ sofar, outcome flat = Returned sofar.
Proof.
  induction item as [ | | b | n | s | p | items IH | settles value IH
                    | settles reason] using Child_nested_ind;
    intros now flat l; simpl;
    try (destruct (outcome flat) as [sofar|reason']; simpl; [by eauto|done]).
  - destruct (outcome flat) as [sofar|reason'] eqn:Hflat; simpl; [|done].
    set (resumed := Nat.max now (settled_at flat)).
    assert (Hfold : ∀ start l',
      outcome (fold_left (recursiveFlattenArray resumed) items start) = Returned l' →
      forallb rejection_free items = true ∧ ∃ acc, outcome start = Returned acc).
    { induction IH as [|x items Hx _ IHitems]; intros start l' Hl'; simpl in *.
      - eauto.
      - destruct (IHitems _ _ Hl') as [-> [acc Hacc]].
        destruct (Hx _ _ _ Hacc) as [-> Hstart]. done. }
    destruct (outcome (fold_left _ items _)) as [more|reason'] eqn:Hinner;
      simpl; [|done].
    intros _. destruct (Hfold _ _ Hinner) as [-> _]. eauto.
  - apply IH.
Qed.

(** ** Settlement: when the last promise has settled *)

Lemma recursiveFlattenArray_settles item :
  ∀ now flat sofar,
    outcome flat = Returned sofar → rejection_free item = true →
    settled_at (recursiveFlattenArray now flat item)
    = Nat.max (Nat.max now (settled_at flat)) (latest item).
Proof.
  induction item as [ | | b | n | s | p | items IH | settles value IH
                    | settles reason] using Child_nested_ind;
    intros now flat sofar Hflat Hfree; simpl in *;
    try (rewrite Hflat; simpl; lia).
  - rewrite Hflat.
    set (resumed := Nat.max now (settled_at flat)).
    assert (Hfold : ∀ start acc,
      outcome start = Returned acc → resumed ≤ settled_at start →
      (∃ acc', outcome (fold_left (recursiveFlattenArray resumed) items start)
               = Returned acc') ∧
      settled_at (fold_left (recursiveFlattenArray resumed) items start)
      = Nat.max (settled_at start) (max_list (map latest items))).
    { clear Hflat.
      induction IH as [|x items Hx _ IHitems]; intros start acc Hs Hle.
      - simpl. split; [eauto|lia].
      - simpl in Hfree. apply andb_true_iff in Hfree as [Hfx Hfitems]. simpl.
        destruct (recursiveFlattenArray_returned_inv' x resumed start acc Hs Hfx)
          as [acc' Hacc'].
        pose proof (Hx resumed start acc Hs Hfx) as Hat.
        destruct (IHitems Hfitems _ _ Hacc') as [Hout ->]; [lia|].
        split; [done|]. lia. }
    destruct (Hfold (mkSettled resumed (Returned [])) [] eq_refl)
      as [[acc' Hacc'] Hat]; [done|].
    rewrite Hacc'. cbn [settled_at]. rewrite Hat. cbn [settled_at]. lia.
  - rewrite (IH _ _ _ Hflat Hfree). lia.
  - done.
Qed.

(** ** Settle times do not matter *)

Lemma declared_retime f item : declared (retime f item) = declared item.
Proof.
  induction item as [ | | b | n | s | p | items IH | settles value IH
                    | settles reason] using Child_nested_ind; simpl; try done.
  f_equal. rewrite map_map. induction IH as [|x items Hx _ IHitems]; simpl; [done|].
  by rewrite Hx, IHitems.
Qed.

Lemma rejection_free_retime f item :
  rejection_free (retime f item) = rejection_free item.
Proof.
  induction item as [ | | b | n | s | p | items IH | settles value IH
                    | settles reason] using Child_nested_ind; simpl; try done.
  induction IH as [|x items Hx _ IHitems]; simpl; [done|].
  by rewrite Hx, IHitems.
Qed.

(** The outcome of a call depends on the outcome of [flat] and on the
    children, not on when anything settles. *)
Lemma recursiveFlattenArray_retime f item :
  ∀ now now' flat flat',
    outcome flat = outcome flat' →
    outcome (recursiveFlattenArray now flat (retime f item))
    = outcome (recursiveFlattenArray now' flat' item).
Proof.
  induction item as [ | | b | n | s | p | items IH | settles value IH
                    | settles reason] using Child_nested_ind;
    intros now now' flat flat' Hflat; simpl;
    try (rewrite Hflat; by destruct (outcome flat')).
  - rewrite Hflat. destruct (outcome flat') as [sofar|reason]; simpl; [|done].
    set (resumed := Nat.max now (settled_at flat)).
    set (resumed' := Nat.max now' (settled_at flat')).
    assert (Hfold : ∀ start start',
      outcome start = outcome start' →
      outcome (fold_left (recursiveFlattenArray resumed) (map (retime f) items) start)
      = outcome (fold_left (recursiveFlattenArray resumed') items start')).
    { induction IH as [|x items Hx _ IHitems]; intros start start' Hs; simpl.
      - done.
      - apply IHitems. by apply Hx. }
    rewrite (Hfold (mkSettled resumed (Returned []))
               (mkSettled resumed' (Returned [])) eq_refl).
    by destruct (outcome (fold_left _ items _)).
  - by apply IH.
  - done.
Qed.

Lemma ensureFlatResolvedArray_retime f now now' children :
  outcome (ensureFlatResolvedArray now (retime f children))
  = outcome (ensureFlatResolvedArray now' children).
Proof.
  unfold ensureFlatResolvedArray.
  destruct children as [ | | b | n | s | p | items | settles value
                       | settles reason];
    try done; cbn [List.filter is_given retime fold_left].
  - by apply (recursiveFlattenArray_retime f (Array items)).
  - by apply (recursiveFlattenArray_retime f (Promise settles value)).
Qed.

Lemma ensureFlatResolvedArray_returned now children :
  rejection_free children = true →
  outcome (ensureFlatResolvedArray now children)
  = Returned (List.filter truthy (declared children)).
Proof.
  intros Hfree. unfold ensureFlatResolvedArray.
  destruct children as [ | | b | n | s | p | items | settles value
                       | settles reason];
    try done; cbn [List.filter is_given fold_left];
    by rewrite (recursiveFlattenArray_returned _ _ _ []).
Qed.

Lemma ensureFlatResolvedArray_returned_inv now children l :
  outcome (ensureFlatResolvedArray now children) = Returned l →
  rejection_free children = true.
Proof.
  unfold ensureFlatResolvedArray.
  destruct children as [ | | b | n | s | p | items | settles value
                       | settles reason];
    try done; cbn [List.filter is_given fold_left];
    intros Hl; by apply recursiveFlattenArray_returned_inv in Hl as [? _].
Qed.

(** The flattener settles when the last of the promises has settled. *)
Lemma ensureFlatResolvedArray_settles now children :
  rejection_free children = true →
  settled_at (ensureFlatResolvedArray now children)
  = Nat.max now (latest children).
Proof.
  intros Hfree. unfold ensureFlatResolvedArray.
  destruct children as [ | | b | n | s | p | items | settles value
                       | settles reason];
    try done; cbn [List.filter is_given fold_left];
    try (rewrite (recursiveFlattenArray_settles _ now
                    (mkSettled now (Returned [])) [] eq_refl Hfree);
         cbn [settled_at]; lia);
    simpl; lia.
Qed.

(** ** The two properties of the flattener *)

(** C7. Order under asynchronous flattening: for children none of whose
    promises is rejected, whatever the times at which the promises settle,
    the flattener is fulfilled with the declared items that [Boolean] keeps,
    in the order of their declaration. *)
Theorem flatten_keeps_declaration_order children :
  rejection_free children = true →
  ∀ now retiming,
    outcome (ensureFlatResolvedArray now (retime retiming children))
    = Returned (List.filter truthy (declared children)).
Proof.
  intros Hfree now retiming.
  rewrite (ensureFlatResolvedArray_retime retiming now now).
  by apply ensureFlatResolvedArray_returned.
Qed.


(** ** What the flattened list is made of *)

(** A single item: neither an array nor a promise. *)
Definition is_single (x : Child) : bool :=
  match x with
  | Array _ | Promise _ _ | Rejected _ _ => false
  | _ => true
  end.

Lemma declared_single item : forallb is_single (declared item) = true.
Proof.
  induction item as [ | | b | n | s | p | items IH | settles value IH
                    | settles reason] using Child_nested_ind; simpl; try done.
  induction IH as [|x items Hx _ IHitems]; simpl; [done|].
  by rewrite forallb_app, Hx, IHitems.
Qed.

Lemma forallb_filter {A} (f g : A → bool) l :
  forallb f l = true → forallb f (List.filter g l) = true.
Proof.
  induction l as [|x l IH]; simpl; [done|].
  intros [Hx Hl]%andb_true_iff. destruct (g x); simpl; [rewrite Hx|]; auto.
Qed.

(** Every item of a fulfilled list is a single item. *)
Lemma ensureFlatResolvedArray_single now children l :
  outcome (ensureFlatResolvedArray now children) = Returned l →
  forallb is_single l = true.
Proof.
  intros Hl.
  pose proof (ensureFlatResolvedArray_returned_inv _ _ _ Hl) as Hfree.
  rewrite (ensureFlatResolvedArray_returned _ _ Hfree) in Hl.
  injection Hl as <-. apply forallb_filter, declared_single.
Qed.

(** The flattener keeps its promise of a single flat array: a fulfilled
    list holds no array and no promise, however deep the children were
    nested. *)
Theorem flatten_result_is_flat now children l :
  outcome (ensureFlatResolvedArray now children) = Returned l →
  forallb is_single l = true.
Proof.
  intros Hl.
  pose proof (ensureFlatResolvedArray_returned_inv _ _ _ Hl) as Hfree.
  rewrite (ensureFlatResolvedArray_returned _ _ Hfree) in Hl.
  injection Hl as <-. apply forallb_filter, declared_single.
Qed.

Lemma declared_singles l :
  forallb is_single l = true → concat (map declared l) = l.
Proof.
  induction l as [|x l IH]; simpl; [done|].
  intros [Hx Hl]%andb_true_iff. rewrite (IH Hl). by destruct x.
Qed.

Lemma rejection_free_singles l :
  forallb is_single l = true → forallb rejection_free l = true.
Proof.
  induction l as [|x l IH]; simpl; [done|].
  intros [Hx Hl]%andb_true_iff. rewrite (IH Hl). by destruct x.
Qed.

(** Flattening what the flattener returned returns it again: a fulfilled
    list, passed as children, is fulfilled unchanged. *)
Theorem flatten_again now now' children l :
  outcome (ensureFlatResolvedArray now children) = Returned l →
  outcome (ensureFlatResolvedArray now' (Array l)) = Returned l.
Proof.
  intros Hl.
  pose proof (ensureFlatResolvedArray_single _ _ _ Hl) as Hsingle.
  pose proof (ensureFlatResolvedArray_returned_inv _ _ _ Hl) as Hfree.
  rewrite (ensureFlatResolvedArray_returned _ _ Hfree) in Hl.
  injection Hl as <-.
  rewrite ensureFlatResolvedArray_returned.
  - cbn [declared]. rewrite (declared_singles _ Hsingle).
    rewrite filter_truthy_all; [done|]. apply all_truthy_filter.
  - cbn [rejection_free]. by apply rejection_free_singles.
Qed.

(** ** Rejection *)

(** The reasons of the rejected promises of [children]. *)
Fixpoint reasons (children : Child) : list string :=
  match children with
  | Array items => concat (map reasons items)
  | Promise _ value => reasons value
  | Rejected _ reason => [reason]
  | _ => []
  end.

Lemma recursiveFlattenArray_thrown item :
  ∀ now flat reason,
    outcome (recursiveFlattenArray now flat item) = Thrown reason →
    outcome flat = Thrown reason ∨ reason ∈ reasons item.
Proof.
  induction item as [ | | b | n | s | p | items IH | settles value IH
                    | settles reason'] using Child_nested_ind;
    intros now flat reason; simpl;
    try (destruct (outcome flat) as [sofar|e]; simpl; [done|by left]).
  - destruct (outcome flat) as [sofar|e] eqn:Hflat; simpl; [|by left].
    set (resumed := Nat.max now (settled_at flat)).
    assert (Hfold : ∀ start,
      outcome (fold_left (recursiveFlattenArray resumed) items start)
      = Thrown reason →
      outcome start = Thrown reason ∨ reason ∈ concat (map reasons items)).
    { induction IH as [|x items Hx _ IHitems]; intros start Hthrown; simpl in *.
      - by left.
      - destruct (IHitems _ Hthrown) as [Hstep|Hin].
        + destruct (Hx _ _ _ Hstep) as [?|?]; [by left|right].
          apply elem_of_app. by left.
        + right. apply elem_of_app. by right. }
    destruct (outcome (fold_left _ items _)) as [more|e] eqn:Hinner;
      simpl; [done|].
    intros [= ->]. destruct (Hfold _ Hinner) as [?|?]; [done|by right].
  - apply IH.
  - intros [= ->]. right. by left.
Qed.

(** Where the reason of a rejected call comes from. *)
Lemma ensureFlatResolvedArray_rejected now children :
  rejection_free children = false →
  ∃ reason, outcome (ensureFlatResolvedArray now children) = Thrown reason ∧
            reason ∈ reasons children.
Proof.
  intros Hfree.
  destruct (outcome (ensureFlatResolvedArray now children)) as [l|reason] eqn:Hout.
  { apply ensureFlatResolvedArray_returned_inv in Hout. congruence. }
  exists reason. split; [done|].
  unfold ensureFlatResolvedArray in Hout.
  destruct children as [ | | b | n | s | p | items | settles value
                       | settles reason'];
    try done; cbn [List.filter is_given fold_left] in Hout;
    by apply recursiveFlattenArray_thrown in Hout as [?|?].
Qed.

(** A rejected promise anywhere among the children rejects the flattener,
    and the reason it rejects with is the reason of one of the rejected
    promises: it has no error of its own. *)
Theorem flatten_rejects now children :
  rejection_free children = false →
  ∃ reason, outcome (ensureFlatResolvedArray now children) = Thrown reason ∧
            reason ∈ reasons children.
Proof.
  intros Hfree.
  destruct (outcome (ensureFlatResolvedArray now children)) as [l|reason] eqn:Hout.
  { apply ensureFlatResolvedArray_returned_inv in Hout. congruence. }
  exists reason. split; [done|].
  unfold ensureFlatResolvedArray in Hout.
  destruct children as [ | | b | n | s | p | items | settles value
                       | settles reason'];
    try done; cbn [List.filter is_given fold_left] in Hout;
    by apply recursiveFlattenArray_thrown in Hout as [?|?].
Qed.

(** ** Wrapping *)

Lemma retime_id item : retime (λ t, t) item = item.
Proof.
  induction item as [ | | b | n | s | p | items IH | settles value IH
                    | settles reason] using Child_nested_ind; simpl; try done.
  - f_equal. induction IH as [|x items Hx _ IHitems]; simpl; [done|].
    by rewrite Hx, IHitems.
  - by rewrite IH.
Qed.

(** The outcome of a call depends on the outcome of [flat] and on the
    item, not on the time of the call. *)
Lemma recursiveFlattenArray_outcome item now now' flat flat' :
  outcome flat = outcome flat' →
  outcome (recursiveFlattenArray now flat item)
  = outcome (recursiveFlattenArray now' flat' item).
Proof.
  intros Hflat. rewrite <- (retime_id item) at 1.
  by apply recursiveFlattenArray_retime.
Qed.

(** A child inside a promise, and a child alone in an array, are flattened
    like the child itself: to the same list, or rejected with the same
    reason. *)
Theorem flatten_unwraps now now' settles child :
  outcome (ensureFlatResolvedArray now (Promise settles child))
  = outcome (ensureFlatResolvedArray now' child) ∧
  outcome (ensureFlatResolvedArray now (Array [child]))
  = outcome (ensureFlatResolvedArray now' child).
Proof.
  unfold ensureFlatResolvedArray. split.
  - cbn [List.filter is_given fold_left recursiveFlattenArray].
    destruct child; try done; cbn [List.filter is_given fold_left];
      by apply recursiveFlattenArray_outcome.
  - cbn [List.filter is_given fold_left recursiveFlattenArray outcome settled_at].
    set (resumed := Nat.max now now).
    assert (Hinner : ∀ item,
      outcome (let inner := recursiveFlattenArray resumed
                              (mkSettled resumed (Returned [])) item in
               match outcome inner with
               | Returned more =>
                   mkSettled (Nat.max resumed (settled_at inner))
                     (Returned ([] ++ more))
               | Thrown reason =>
                   mkSettled (Nat.max resumed (settled_at inner)) (Thrown reason)
               end)
      = outcome (recursiveFlattenArray resumed
                   (mkSettled resumed (Returned [])) item)).
    { intros item. cbv zeta. by destruct (outcome (recursiveFlattenArray _ _ item)). }
    rewrite Hinner.
    destruct child; try done; cbn [List.filter is_given fold_left];
      by apply recursiveFlattenArray_outcome.
Qed.

(** ** The pragma: [JSX] *)

Section Pragma.

(** The components, and the props and styles they take.  [style_of props]
    is [props.style] when it is there and truthy.  A component is a
    function: [call component props children now] is the promise of
    [component({ ...props, children })] called at time [now]; what it is
    fulfilled with is not looked at.  [None] for the props is [null], what a
    JSX element without attributes passes. *)
Context {Component Style Props : Type}.
Variable style_of : Props → option Style.
Variable call : Component → option Props → list Child → nat → Settled ().

(** The node [JSX] builds: [{ component, style, props, children }]; [None]
    for the props is the empty object of [props || {}]. *)
Record JsxNode : Type := mkJsxNode {
  component : Component;
  style : option Style;
  props : option Props;
  children : list Child
}.

(** [JSX(component, props, ...children)], called at time [now]: the children
    are flattened, the component is called with them and awaited, the
    children are flattened once more for the node.
    [style: props?.style || null]. *)
Definition JSX (now : nat) (component : Component) (props : option Props)
    (children : list Child) : Settled JsxNode :=
  let first := ensureFlatResolvedArray now (Array children) in
  match outcome first with
  | Thrown reason => mkSettled (settled_at first) (Thrown reason)
  | Returned flat =>
      let called := call component props flat (settled_at first) in
      let resumed := Nat.max (settled_at first) (settled_at called) in
      match outcome called with
      | Thrown reason => mkSettled resumed (Thrown reason)
      | Returned _ =>
          let second := ensureFlatResolvedArray resumed (Array children) in
          match outcome second with
          | Thrown reason => mkSettled (settled_at second) (Thrown reason)
          | Returned flat' =>
              mkSettled (settled_at second)
                (Returned (mkJsxNode component (props ≫= style_of) props flat'))
          end
      end
  end.

(** A node that [JSX] is fulfilled with holds the declared children that
    [Boolean] keeps, in order, single items all of them; these are the
    children its component was called with, and the call was fulfilled. *)
Theorem JSX_children now c p declared_children node :
  outcome (JSX now c p declared_children) = Returned node →
  children node = List.filter truthy (declared (Array declared_children)) ∧
  forallb is_single (children node) = true ∧
  component node = c ∧ props node = p ∧ style node = p ≫= style_of ∧
  ∃ called_at result,
    outcome (call c p (children node) called_at) = Returned result.
Proof.
  unfold JSX.
  destruct (outcome (ensureFlatResolvedArray now _)) as [flat|reason] eqn:Hfirst;
    [|done].
  destruct (outcome (call c p flat _)) as [result|reason] eqn:Hcall; [|done].
  cbv zeta.
  destruct (outcome (ensureFlatResolvedArray (Nat.max _ _) _))
    as [flat'|reason] eqn:Hsecond; [|done].
  cbn [outcome]. intros [= <-]. cbn [children component props style].
  pose proof (ensureFlatResolvedArray_returned_inv _ _ _ Hfirst) as Hfree.
  pose proof (ensureFlatResolvedArray_single _ _ _ Hsecond) as Hflat.
  rewrite (ensureFlatResolvedArray_returned _ _ Hfree) in Hfirst.
  rewrite (ensureFlatResolvedArray_returned _ _ Hfree) in Hsecond.
  injection Hfirst as <-. injection Hsecond as <-.
  repeat split; try done. eauto.
Qed.

(** A rejected promise among the children rejects [JSX] with the reason of
    such a promise, whatever the component does. *)
Theorem JSX_rejects now c p declared_children :
  forallb rejection_free declared_children = false →
  ∃ reason, outcome (JSX now c p declared_children) = Thrown reason ∧
            reason ∈ reasons (Array declared_children).
Proof.
  intros Hfree.
  destruct (ensureFlatResolvedArray_rejected now (Array declared_children) Hfree)
    as (reason & Hout & Hin).
  exists reason. unfold JSX. by rewrite Hout.
Qed.

End Pragma.

End Flatten.

Arguments Child P : clear implicits.
Arguments Undefined {P}.
Arguments Null {P}.
Arguments Boolean {P} b.
Arguments Number {P} n.
Arguments Str {P} s.
Arguments Item {P} p.
Arguments Array {P} items.
Arguments Promise {P} settles value.
Arguments Rejected {P} settles reason.

(** ** The flattener on concrete children *)

(** Children whose promises settle out of order: the first one last. *)
Definition out_of_order : Child nat :=
  Array [Promise 50 (Item 1);
         Promise 10 (Array [Item 2; Boolean false; Promise 5 (Item 3)]);
         Number (Num 0); Str ""; Null; Undefined;
         Item 4].

Example flatten_out_of_order :
  ensureFlatResolvedArray 0 out_of_order
  = mkSettled 50 (Returned [Item 1; Item 2; Item 3; Item 4]).
Proof. vm_compute. reflexivity. Qed.

(** A rejected promise rejects the whole call. *)
Example flatten_rejected :
  outcome (ensureFlatResolvedArray 0
             (Array [Item 1; Rejected 3 "no"; Item 2] : Child nat))
  = Thrown "no"%string.
Proof. vm_compute. reflexivity. Qed.

Lemma flatten_keeps_declaration_order_witness :
  rejection_free out_of_order = true ∧
  outcome (ensureFlatResolvedArray 0 (retime (λ t, 60 - t) out_of_order))
  = Returned [Item 1; Item 2; Item 3; Item 4].
Proof.
  split; [reflexivity|].
  apply (flatten_keeps_declaration_order out_of_order). reflexivity.
Defined.


Lemma flatten_result_is_flat_witness :
  outcome (ensureFlatResolvedArray 0 out_of_order)
  = Returned [Item 1; Item 2; Item 3; Item 4] ∧
  forallb is_single [Item 1; Item 2; Item 3; Item 4 : Child nat] = true.
Proof.
  split; [vm_compute; reflexivity|].
  apply (flatten_result_is_flat 0 out_of_order). vm_compute. reflexivity.
Defined.

Lemma flatten_again_witness :
  outcome (ensureFlatResolvedArray 7 (Array [Item 1; Item 2; Item 3; Item 4]))
  = Returned [Item 1; Item 2; Item 3; Item 4 : Child nat].
Proof.
  apply (flatten_again 0 7 out_of_order). vm_compute. reflexivity.
Defined.

(** Children with two rejected promises. *)
Definition twice_rejected : Child nat :=
  Array [Item 1; Rejected 9 "first"; Array [Promise 2 (Rejected 4 "second")]].

Example flatten_twice_rejected :
  ensureFlatResolvedArray 0 twice_rejected = mkSettled 9 (Thrown "first"%string).
Proof. vm_compute. reflexivity. Qed.

Lemma flatten_rejects_witness :
  rejection_free twice_rejected = false ∧
  ∃ reason, outcome (ensureFlatResolvedArray 0 twice_rejected) = Thrown reason ∧
            reason ∈ reasons twice_rejected.
Proof.
  split; [reflexivity|].
  apply (flatten_rejects 0 twice_rejected). reflexivity.
Defined.

(** A component that takes no time and accepts up to three children. *)
Definition up_to_three (c : string) (p : option (option string))
    (given : list (Child nat)) (now : nat) : Settled () :=
  mkSettled now
    (if decide (length given ≤ 3) then Returned ()
     else Thrown "too many children"%string).

Example JSX_out_of_order :
  JSX (λ p : option string, p) up_to_three 0 "Paragraph" (Some (Some "bold"%string))
    [Promise 50 (Item 1); Promise 10 (Array [Item 2; Boolean false]); Null]
  = mkSettled 50
      (Returned (mkJsxNode "Paragraph"%string (Some "bold"%string)
                   (Some (Some "bold"%string)) [Item 1; Item 2])).
Proof. vm_compute. reflexivity. Qed.

Example JSX_component_rejects :
  outcome (JSX (λ p : option string, p) up_to_three 0 "Paragraph" None
             [Item 1; Item 2; Item 3; Item 4])
  = Thrown "too many children"%string.
Proof. vm_compute. reflexivity. Qed.

Lemma JSX_children_witness :
  children (mkJsxNode "Paragraph"%string (Some "bold"%string)
              (Some (Some "bold"%string)) [Item 1; Item 2 : Child nat])
  = List.filter truthy
      (declared (Array [Promise 50 (Item 1);
                        Promise 10 (Array [Item 2; Boolean false]); Null])) ∧
  forallb is_single
    (children (mkJsxNode "Paragraph"%string (Some "bold"%string)
                 (Some (Some "bold"%string)) [Item 1; Item 2 : Child nat]))
  = true ∧
  component (mkJsxNode "Paragraph"%string (Some "bold"%string)
               (Some (Some "bold"%string)) [Item 1; Item 2 : Child nat])
  = "Paragraph"%string ∧
  props (mkJsxNode "Paragraph"%string (Some "bold"%string)
           (Some (Some "bold"%string)) [Item 1; Item 2 : Child nat])
  = Some (Some "bold"%string) ∧
  style (mkJsxNode "Paragraph"%string (Some "bold"%string)
           (Some (Some "bold"%string)) [Item 1; Item 2 : Child nat])
  = Some (Some "bold"%string) ≫= (λ p : option string, p) ∧
  ∃ called_at result,
    outcome (up_to_three "Paragraph" (Some (Some "bold"%string))
               (children (mkJsxNode "Paragraph"%string (Some "bold"%string)
                            (Some (Some "bold"%string))
                            [Item 1; Item 2 : Child nat])) called_at)
    = Returned result.
Proof.
  apply (JSX_children (λ p : option string, p) up_to_three 0 "Paragraph"
           (Some (Some "bold"%string))
           [Promise 50 (Item 1); Promise 10 (Array [Item 2; Boolean false]); Null]).
  vm_compute. reflexivity.
Defined.

Lemma JSX_rejects_witness :
  forallb rejection_free [Item 1; Rejected 3 "no" : Child nat] = false ∧
  ∃ reason,
    outcome (JSX (λ p : option string, p) up_to_three 0 "Paragraph" None
               [Item 1; Rejected 3 "no"]) = Thrown reason ∧
    reason ∈ reasons (Array [Item 1; Rejected 3 "no" : Child nat]).
Proof.
  split; [reflexivity|].
  apply (JSX_rejects (λ p : option string, p) up_to_three 0 "Paragraph" None
           [Item 1; Rejected 3 "no"]).
  reflexivity.
Defined.

End Flatten.

(** * The result monad *)

Global Instance Result_ret {E} : MRet (Result E) := λ A a, Returned a.
Global Instance Result_bind {E} : MBind (Result E) := λ A B f m,
  match m with
  | Returned a => f a
  | Thrown e => Thrown e
  end.
Global Instance Result_fmap {E} : FMap (Result E) := λ A B f m,
  match m with
  | Returned a => Returned (f a)
  | Thrown e => Thrown e
  end.

(** * XML nodes *)

Module Xml.

(** A DOM node as the codecs see it: an element with its qualified name, its
    attributes and its children, or a text node. *)
Inductive XmlNode : Type :=
| Element (name : string) (attributes : list (string * string))
    (children : list XmlNode)
| TextNode (data : string).

(** [node.nodeName]. *)
Definition nodeName (node : XmlNode) : string :=
  match node with
  | Element name _ _ => name
  | TextNode _ => "#text"
  end.

(** [node.childNodes]. *)
Definition childNodes (node : XmlNode) : list XmlNode :=
  match node with
  | Element _ _ children => children
  | TextNode _ => []
  end.

(** The value of the attribute [key] of [node], [@key]. *)
Definition attribute (key : string) (node : XmlNode) : option string :=
  match node with
  | Element _ attributes _ =>
      snd <$> List.find (λ a, String.eqb (fst a) key) attributes
  | TextNode _ => None
  end.

(** The name test of an XPath step: an element called [name]. *)
Definition is_element (name : string) (node : XmlNode) : bool :=
  match node with
  | Element name' _ _ => String.eqb name' name
  | TextNode _ => false
  end.

(** The XPath step [./name]: the child elements called [name], in document
    order. *)
Definition child_elements (name : string) (node : XmlNode) : list XmlNode :=
  List.filter (is_element name) (childNodes node).

(** Modelled from the spec: [QNS.w] belongs to utilities/namespaces.ts, which
    is not at hand; by the spec the prefix [w:] is bound to the
    WordprocessingML namespace for all element and attribute names. *)
Definition QNS_w : string := "w:".

Definition w (local : string) : string := QNS_w +:+ local.

End Xml.

(** * The components: [TextAddition] and [Paragraph] *)

Module Components.
Import Xml.

(** What the two component modules import and is not at hand: the types of
    the built-in [Date], of the [Text] and [TextDeletion] components and of
    the paragraph and section property bags. *)
Class Foreign : Type := {
  Date : Type;
  Text : Type;
  TextDeletion : Type;
  ParagraphProperties : Type;
  SectionProperties : Type
}.

(** The errors of decoding. *)
Inductive DecodeError : Type :=
| NoMatchingTypeError
| UnknownTypeError (name : string)
| MalformedChangeMetadataError
| ForeignError (message : string).

Section Components.
Context `{Foreign}.

(** [ChangeInformation], the props of a tracked change. *)
Record ChangeInformation : Type := mkChangeInformation {
  id : string;
  author : string;
  date : Date
}.

(** The props of a paragraph as [Paragraph.fromNode] builds them:
    [{ ...paragraphPropertiesFromNode(ppr), ...props }], where [props] is
    what is left of the XPath map, its ["style"] entry. *)
Record ParagraphProps : Type := mkParagraphProps {
  properties : ParagraphProperties;
  style : list string
}.

(** An instance of a component class: its props and its children.  A
    [Paragraph] also has its private [sectionProperties]. *)
Inductive Component : Type :=
| IsText (t : Text)
| IsTextAddition (props : ChangeInformation) (children : list Component)
| IsTextDeletion (d : TextDeletion)
| IsParagraph (props : ParagraphProps)
    (sectionProperties : option SectionProperties) (children : list Component).

(** The functions the two modules import and that are not at hand. *)
Class ForeignCodecs : Type := {
  (** [Date.prototype.toISOString] *)
  toISOString : Date → string;
  (** reading a date attribute back, in utilities/changes.ts *)
  parseDate : string → option Date;
  (** components/Text.ts *)
  Text_toNode : list Component → Text → XmlNode;
  Text_matchesNode : XmlNode → bool;
  Text_fromNode : XmlNode → Result DecodeError Text;
  (** components/TextDeletion.ts *)
  TextDeletion_toNode : list Component → TextDeletion → XmlNode;
  TextDeletion_matchesNode : XmlNode → bool;
  TextDeletion_fromNode : XmlNode → Result DecodeError TextDeletion;
  (** properties/paragraph-properties.ts; a missing node is an empty list *)
  paragraphPropertiesToNode :
    ParagraphProps → option SectionProperties → list XmlNode;
  paragraphPropertiesFromNode : list XmlNode → ParagraphProperties
}.
Context `{ForeignCodecs}.

(** ** Static members *)

(** [TextAddition.children = ['Text', this.name, 'TextDeletion']]. *)
Definition TextAddition_children : list string :=
  ["Text"; "TextAddition"; "TextDeletion"]%string.

Definition TextAddition_mixed : bool := false.

(** [Paragraph.children = ['Text', 'TextAddition', 'TextDeletion']]. *)
Definition Paragraph_children : list string :=
  ["Text"; "TextAddition"; "TextDeletion"]%string.

Definition Paragraph_mixed : bool := false.

(** [TextAddition.matchesNode]: [node.nodeName === 'w:ins']. *)
Definition TextAddition_matchesNode (node : XmlNode) : bool :=
  String.eqb (nodeName node) "w:ins".

(** [Paragraph.matchesNode]: [node.nodeName === 'w:p']. *)
Definition Paragraph_matchesNode (node : XmlNode) : bool :=
  String.eqb (nodeName node) "w:p".

(** ** Encoding *)

(** [toNode(ancestry)] of every component.

    Modelled from the spec: [childrenToNode(ancestry)] belongs to the
    [Component] base class, which is not at hand; by the spec's [encode] the
    children are encoded in order, each with the ancestry extended by the
    node itself.

    - [TextAddition.toNode]: [element w:ins { attribute w:id { $id },
      attribute w:author { $author }, attribute w:date { $date }, $children }]
      with [date: this.props.date.toISOString()];
    - [Paragraph.toNode]: [element w:p { $pPr, for $child in $children
      return $child }] with [pPr: paragraphPropertiesToNode(this.props,
      this.sectionProperties)]. *)
Fixpoint toNode (ancestry : list Component) (c : Component) : XmlNode :=
  match c with
  | IsText t => Text_toNode ancestry t
  | IsTextDeletion d => TextDeletion_toNode ancestry d
  | IsTextAddition props children =>
      Element (w "ins")
        [(w "id", id props); (w "author", author props);
         (w "date", toISOString (date props))]
        (map (toNode (c :: ancestry)) children)
  | IsParagraph props sectionProperties children =>
      Element (w "p") []
        (paragraphPropertiesToNode props sectionProperties
           ++ map (toNode (c :: ancestry)) children)
  end.

(** ** Decoding *)

(** Modelled from the spec: [getChangeInformation] lives in
    utilities/changes.ts, which is not at hand.  It reads the id, author and
    date attributes and fails with [MalformedChangeMetadataError] if one is
    absent or the date cannot be parsed. *)
Definition getChangeInformation (node : XmlNode)
  : Result DecodeError ChangeInformation :=
  match attribute (w "id") node, attribute (w "author") node,
        attribute (w "date") node with
  | Some i, Some a, Some d =>
      match parseDate d with
      | Some d' => Returned (mkChangeInformation i a d')
      | None => Thrown MalformedChangeMetadataError
      end
  | _, _, _ => Thrown MalformedChangeMetadataError
  end.

(** The registry, [lookupByName]: the [matchesNode] of the component
    registered under [name].  The four components are registered by the
    imports at the head of the two modules. *)
Definition matchesNode (name : string) : option (XmlNode → bool) :=
  if String.eqb name "Text" then Some Text_matchesNode
  else if String.eqb name "TextAddition" then Some TextAddition_matchesNode
  else if String.eqb name "TextDeletion" then Some TextDeletion_matchesNode
  else if String.eqb name "Paragraph" then Some Paragraph_matchesNode
  else None.

(** Modelled from the spec: the dispatcher lives in utilities/components.ts,
    which is not at hand.  By the spec's [dispatchDecode] it goes through the
    allowed type names in order, asks each definition whether it matches
    [node], and decodes with the first that does; it fails with
    [NoMatchingTypeError] when none matches, and a name that is not
    registered fails with [UnknownTypeError].  [decode name] is the
    [fromNode] of the component called [name], applied to [node]. *)
Definition dispatch (node : XmlNode)
    (decode : string → Result DecodeError Component)
  : list string → Result DecodeError Component :=
  fix iterate names :=
    match names with
    | [] => Thrown NoMatchingTypeError
    | name :: others =>
        match matchesNode name with
        | None => Thrown (UnknownTypeError name)
        | Some matches => if matches node then decode name else iterate others
        end
    end.

(** The XPath [./w:r] of [TextAddition.fromNode]. *)
Definition selects_run (node : XmlNode) : bool := is_element (w "r") node.

(** The XPath [./(w:r | w:del | w:ins)] of [Paragraph.fromNode]: a union,
    in document order. *)
Definition selects_paragraph_child (node : XmlNode) : bool :=
  is_element (w "r") node || is_element (w "del") node
  || is_element (w "ins") node.

(** The ["style"] entry of the XPath map of [Paragraph.fromNode],
    [./w:pPr/w:pStyle/@w:val/string()]. *)
Definition paragraph_style (node : XmlNode) : list string :=
  ppr ← child_elements (w "pPr") node;
  pStyle ← child_elements (w "pStyle") ppr;
  option_list (attribute (w "val") pStyle).

Section FromNode.

(** The dispatcher of the registry, which the [fromNode] functions call for
    their children. *)
Variable dispatchDecode : list string → XmlNode → Result DecodeError Component.

(** Modelled from the spec: [createChildComponentsFromNodes(names, nodes)]
    lives in utilities/components.ts, which is not at hand.  It dispatches
    every node in order; the first failure is the failure of the whole. *)
Fixpoint createChildComponentsFromNodes (names : list string)
    (nodes : list XmlNode) : Result DecodeError (list Component) :=
  match nodes with
  | [] => Returned []
  | node :: rest =>
      child ← dispatchDecode names node;
      children ← createChildComponentsFromNodes names rest;
      mret (child :: children)
  end.

(** [TextAddition.fromNode]. *)
Definition TextAddition_fromNode (node : XmlNode)
  : Result DecodeError Component :=
  props ← getChangeInformation node;
  children ← createChildComponentsFromNodes TextAddition_children
                (List.filter selects_run (childNodes node));
  mret (IsTextAddition props children).

(** [Paragraph.fromNode]. *)
Definition Paragraph_fromNode (node : XmlNode)
  : Result DecodeError Component :=
  let ppr := child_elements (w "pPr") node in
  let props := paragraph_style node in
  children ← createChildComponentsFromNodes Paragraph_children
                (List.filter selects_paragraph_child (childNodes node));
  mret (IsParagraph (mkParagraphProps (paragraphPropertiesFromNode ppr) props)
          None children).

End FromNode.

(** The children of [node] that [selects] keeps, each decoded by
    [decodeChild], left to right up to the first failure: the recursion of
    [createChildComponentsFromNodes] over a filtered [childNodes], written
    over the children themselves. *)
Definition decode_selected (selects : XmlNode → bool)
    (decodeChild : XmlNode → Result DecodeError Component) (node : XmlNode)
  : Result DecodeError (list Component) :=
  match node with
  | TextNode _ => Returned []
  | Element _ _ children =>
      (fix each nodes :=
         match nodes with
         | [] => Returned []
         | child :: rest =>
             if selects child
             then match decodeChild child with
                  | Thrown e => Thrown e
                  | Returned c =>
                      match each rest with
                      | Thrown e => Thrown e
                      | Returned cs => Returned (c :: cs)
                      end
                  end
             else each rest
         end) children
  end.

(** [fromNode] of the component registered under [name]: the registry with
    the recursion through the dispatcher tied, by recursion on the node.
    [fromNode_TextAddition] and [fromNode_Paragraph] below show that it is
    [TextAddition.fromNode] and [Paragraph.fromNode] with the dispatcher of
    this registry. *)
Fixpoint fromNode (name : string) (node : XmlNode) {struct node}
  : Result DecodeError Component :=
  if String.eqb name "Text" then IsText <$> Text_fromNode node
  else if String.eqb name "TextDeletion"
  then IsTextDeletion <$> TextDeletion_fromNode node
  else if String.eqb name "TextAddition" then
    props ← getChangeInformation node;
    children ← decode_selected selects_run
      (λ child, dispatch child (λ name', fromNode name' child)
                  TextAddition_children) node;
    mret (IsTextAddition props children)
  else if String.eqb name "Paragraph" then
    children ← decode_selected selects_paragraph_child
      (λ child, dispatch child (λ name', fromNode name' child)
                  Paragraph_children) node;
    mret (IsParagraph
            (mkParagraphProps
               (paragraphPropertiesFromNode (child_elements (w "pPr") node))
               (paragraph_style node))
            None children)
  else Thrown (UnknownTypeError name).

(** The dispatcher of this registry. *)
Definition dispatchDecode (names : list string) (node : XmlNode)
  : Result DecodeError Component :=
  dispatch node (λ name, fromNode name node) names.

(** ** The registry is the two decoders with its own dispatcher *)

Lemma createChildComponentsFromNodes_cons dispatcher names node rest :
  createChildComponentsFromNodes dispatcher names (node :: rest)
  = match dispatcher names node with
    | Thrown e => Thrown e
    | Returned c =>
        match createChildComponentsFromNodes dispatcher names rest with
        | Thrown e => Thrown e
        | Returned cs => Returned (c :: cs)
        end
    end.
Proof.
  simpl. destruct (dispatcher names node) as [c|e]; [|reflexivity]. simpl.
  by destruct (createChildComponentsFromNodes dispatcher names rest).
Qed.

Lemma decode_selected_filter selects names node :
  decode_selected selects
    (λ child, dispatch child (λ name, fromNode name child) names) node
  = createChildComponentsFromNodes dispatchDecode names
      (List.filter selects (childNodes node)).
Proof.
  destruct node as [name attributes children|data]; [|reflexivity].
  cbn [decode_selected childNodes].
  induction children as [|child rest IH]; [reflexivity|].
  cbn [List.filter]. destruct (selects child); [|exact IH].
  rewrite createChildComponentsFromNodes_cons, IH. reflexivity.
Qed.

Lemma fromNode_unfold name node :
  fromNode name node =
  if String.eqb name "Text" then IsText <$> Text_fromNode node
  else if String.eqb name "TextDeletion"
  then IsTextDeletion <$> TextDeletion_fromNode node
  else if String.eqb name "TextAddition"
  then TextAddition_fromNode dispatchDecode node
  else if String.eqb name "Paragraph"
  then Paragraph_fromNode dispatchDecode node
  else Thrown (UnknownTypeError name).
Proof.
  unfold TextAddition_fromNode, Paragraph_fromNode.
  rewrite <- !decode_selected_filter. destruct node; reflexivity.
Qed.

Lemma fromNode_TextAddition node :
  fromNode "TextAddition" node = TextAddition_fromNode dispatchDecode node.
Proof. by rewrite fromNode_unfold. Qed.

Lemma fromNode_Paragraph node :
  fromNode "Paragraph" node = Paragraph_fromNode dispatchDecode node.
Proof. by rewrite fromNode_unfold. Qed.

(** ** The dispatcher *)

(** The component called [name] is registered and does not match [node]. *)
Definition rejects (node : XmlNode) (name : string) : Prop :=
  ∃ matches, matchesNode name = Some matches ∧ matches node = false.

Lemma dispatchDecode_no_match names node :
  Forall (rejects node) names →
  dispatchDecode names node = Thrown NoMatchingTypeError.
Proof.
  unfold dispatchDecode. induction 1 as [|name names (m & Hm & Hno) _ IH]; simpl.
  - reflexivity.
  - by rewrite Hm, Hno.
Qed.

(** ** The selections *)

Lemma filter_skip (selects : XmlNode → bool) before child after :
  selects child = false →
  List.filter selects (before ++ child :: after)
  = List.filter selects (before ++ after).
Proof.
  intros Hno. rewrite !List.filter_app. simpl. by rewrite Hno.
Qed.

Lemma child_elements_skip name' name attributes before child after :
  is_element name' child = false →
  child_elements name' (Element name attributes (before ++ child :: after))
  = child_elements name' (Element name attributes (before ++ after)).
Proof. intros Hno. unfold child_elements. simpl. by apply filter_skip. Qed.

(** An encoded [TextAddition] is a [w:ins] element, which [./w:r] does not
    select. *)
Lemma selects_run_TextAddition ancestry props children :
  selects_run (toNode ancestry (IsTextAddition props children)) = false.
Proof. reflexivity. Qed.

(** The props of a [TextAddition] come back when the date does. *)
Lemma getChangeInformation_toNode ancestry props children :
  parseDate (toISOString (date props)) = Some (date props) →
  getChangeInformation (toNode ancestry (IsTextAddition props children))
  = Returned props.
Proof.
  destruct props as [i a d]. cbn [date]. intros Hdate.
  unfold getChangeInformation. cbn [toNode id author date].
  change (attribute (w "id") (Element _ _ _)) with (Some i).
  change (attribute (w "author") (Element _ _ _)) with (Some a).
  change (attribute (w "date") (Element _ _ _)) with (Some (toISOString d)).
  cbv beta iota. by rewrite Hdate.
Qed.

(** ** Round trip of [TextAddition] *)

(** What [TextAddition.fromNode] can return as a child, with the dispatcher
    of the registry: a [w:r] element is matched by no [TextAddition] (and by
    no [Paragraph]), so every child is an instance of [Text] or of
    [TextDeletion].  No tracked insertion comes back as the child of one. *)
Definition is_run_or_deletion (c : Component) : Prop :=
  match c with
  | IsText _ | IsTextDeletion _ => True
  | IsTextAddition _ _ | IsParagraph _ _ _ => False
  end.

Lemma dispatchDecode_run names node c :
  selects_run node = true →
  dispatchDecode names node = Returned c → is_run_or_deletion c.
Proof.
  intros Hrun. unfold dispatchDecode.
  assert (Hins : TextAddition_matchesNode node = false).
  { destruct node as [name attributes children|data]; [|done].
    unfold selects_run in Hrun. simpl in Hrun. apply String.eqb_eq in Hrun.
    by subst name. }
  assert (Hp : Paragraph_matchesNode node = false).
  { destruct node as [name attributes children|data]; [|done].
    unfold selects_run in Hrun. simpl in Hrun. apply String.eqb_eq in Hrun.
    by subst name. }
  induction names as [|name names IH]; simpl; [done|].
  unfold matchesNode. rewrite (fromNode_unfold name node).
  destruct (String.eqb name "Text").
  { destruct (Text_matchesNode node); [|done].
    destruct (Text_fromNode node); simpl; [by intros [= <-]|done]. }
  destruct (String.eqb name "TextAddition"); [by rewrite Hins|].
  destruct (String.eqb name "TextDeletion").
  { destruct (TextDeletion_matchesNode node); [|done].
    destruct (TextDeletion_fromNode node); simpl; [by intros [= <-]|done]. }
  destruct (String.eqb name "Paragraph"); [by rewrite Hp|done].
Qed.

Lemma createChildComponentsFromNodes_runs names nodes children :
  Forall (λ n, selects_run n = true) nodes →
  createChildComponentsFromNodes dispatchDecode names nodes = Returned children →
  Forall is_run_or_deletion children.
Proof.
  intros Hruns. revert children.
  induction Hruns as [|n nodes Hn _ IH]; intros children.
  - intros [= <-]. constructor.
  - rewrite createChildComponentsFromNodes_cons.
    destruct (dispatchDecode names n) as [c|e] eqn:Hc; [|done].
    destruct (createChildComponentsFromNodes dispatchDecode names nodes)
      as [cs|e]; [|done].
    intros [= <-]. constructor; [by eapply dispatchDecode_run|by apply IH].
Qed.

Lemma TextAddition_fromNode_children node props children :
  TextAddition_fromNode dispatchDecode node
  = Returned (IsTextAddition props children) →
  Forall is_run_or_deletion children.
Proof.
  unfold TextAddition_fromNode.
  destruct (getChangeInformation node) as [props'|e]; [|done].
  destruct (createChildComponentsFromNodes dispatchDecode TextAddition_children _)
    as [cs|e] eqn:Hcs; [|done].
  intros [= _ <-]. eapply createChildComponentsFromNodes_runs; [|exact Hcs].
  apply List.Forall_forall. intros n Hn. by apply List.filter_In in Hn as [_ ?].
Qed.

(** C1. The round trip of [TextAddition] at a tracked insertion nested in
    another: encoding gives a [w:ins] element inside a [w:ins] element, and
    decoding that element, with whatever dispatcher for the children, gives
    back the change information with no child at all, because [./w:r]
    selects none of the children.  The nested insertion, an accepted child,
    is lost. *)
Theorem TextAddition_round_trip_loses_nested_insertion
    dispatcher ancestry props inner inner_children :
  TextAddition_fromNode dispatcher
    (toNode ancestry
       (IsTextAddition props [IsTextAddition inner inner_children]))
  = (props' ← getChangeInformation
                (toNode ancestry
                   (IsTextAddition props [IsTextAddition inner inner_children]));
     mret (IsTextAddition props' [])).
Proof.
  unfold TextAddition_fromNode.
  destruct (getChangeInformation _) as [props'|e]; reflexivity.
Qed.

(** ** Children of a paragraph that no component represents *)

(** C6, as the code has it.  The dispatcher fails with
    [NoMatchingTypeError] on a node that every candidate rejects.
    [Paragraph.fromNode] however hands to the dispatcher, whichever it is,
    only the children that [./(w:r | w:del | w:ins)] selects: any other
    child element (that is not the [w:pPr] of the properties) is left out of
    the decoded paragraph, which is decoded as if the child were not
    there. *)
Theorem Paragraph_fromNode_omits_unselected
    dispatcher names node name attributes before child after :
  Forall (rejects node) names →
  selects_paragraph_child child = false →
  is_element (w "pPr") child = false →
  dispatchDecode names node = Thrown NoMatchingTypeError ∧
  Paragraph_fromNode dispatcher
    (Element name attributes (before ++ child :: after))
  = Paragraph_fromNode dispatcher (Element name attributes (before ++ after)).
Proof.
  intros Hrejects Hchild Hppr. split; [by apply dispatchDecode_no_match|].
  unfold Paragraph_fromNode, paragraph_style.
  rewrite (child_elements_skip _ _ _ _ _ _ Hppr).
  cbn [childNodes]. rewrite (filter_skip _ _ _ _ Hchild). reflexivity.
Qed.

(** ** What the two decoders hand to the dispatcher after an encoding *)

(** The children that [TextAddition.toNode] encodes itself, to [w:ins] and
    [w:p] elements: tracked insertions and paragraphs. *)
Definition is_insertion_or_paragraph (c : Component) : bool :=
  match c with
  | IsTextAddition _ _ | IsParagraph _ _ _ => true
  | IsText _ | IsTextDeletion _ => false
  end.

Lemma filter_map_skip {A} (selects : XmlNode → bool) (f : A → XmlNode)
    (skips : A → bool) l :
  (∀ x, skips x = true → selects (f x) = false) →
  List.filter selects (map f l)
  = List.filter selects (map f (List.filter (λ x, negb (skips x)) l)).
Proof.
  intros Hskip. induction l as [|x l IH]; simpl; [done|].
  destruct (skips x) eqn:Hx; simpl.
  - by rewrite (Hskip _ Hx).
  - by rewrite IH.
Qed.

(** Decoding an encoded tracked insertion, with whatever dispatcher, gives
    what decoding would give had the insertion no tracked insertion among
    its children: wherever they stand and however many they are, the nested
    insertions are not handed to the dispatcher; the other children are, in
    their order. *)
Theorem TextAddition_round_trip_skips_nested_insertions
    dispatcher ancestry props children :
  TextAddition_fromNode dispatcher
    (toNode ancestry (IsTextAddition props children))
  = (props' ← getChangeInformation
                (toNode ancestry (IsTextAddition props children));
     decoded ← createChildComponentsFromNodes dispatcher TextAddition_children
                 (List.filter selects_run
                    (map (toNode (IsTextAddition props children :: ancestry))
                       (List.filter (λ c, negb (is_insertion_or_paragraph c))
                          children)));
     mret (IsTextAddition props' decoded)).
Proof.
  unfold TextAddition_fromNode. cbn [toNode childNodes].
  rewrite (filter_map_skip selects_run _ is_insertion_or_paragraph); [done|].
  by intros [t|props'' children''|d|props'' sp children''].
Qed.

Lemma filter_all (selects : XmlNode → bool) l :
  Forall (λ n, selects n = true) l → List.filter selects l = l.
Proof.
  induction 1 as [|x l Hx _ IH]; simpl; [done|]. by rewrite Hx, IH.
Qed.

Lemma filter_none (selects : XmlNode → bool) l :
  Forall (λ n, selects n = false) l → List.filter selects l = [].
Proof.
  induction 1 as [|x l Hx _ IH]; simpl; [done|]. by rewrite Hx, IH.
Qed.

(** Decoding an encoded paragraph, with whatever dispatcher: when the
    properties are encoded to elements that the XPath of the children does
    not select, and every child to an element that it selects, the
    dispatcher is handed the encoded children, all of them and in order.
    Tracked insertions are such children; the decoded paragraph has no
    section properties. *)
Theorem Paragraph_round_trip_hands_all_children
    dispatcher ancestry props sectionProperties children :
  Forall (λ n, selects_paragraph_child n = false)
    (paragraphPropertiesToNode props sectionProperties) →
  Forall (λ c, is_insertion_or_paragraph c = false →
               selects_paragraph_child
                 (toNode (IsParagraph props sectionProperties children
                            :: ancestry) c) = true) children →
  Forall (λ c, match c with IsParagraph _ _ _ => False | _ => True end)
    children →
  Paragraph_fromNode dispatcher
    (toNode ancestry (IsParagraph props sectionProperties children))
  = (decoded ← createChildComponentsFromNodes dispatcher Paragraph_children
                 (map (toNode (IsParagraph props sectionProperties children
                                 :: ancestry)) children);
     mret (IsParagraph
             (mkParagraphProps
                (paragraphPropertiesFromNode
                   (child_elements (w "pPr")
                      (toNode ancestry
                         (IsParagraph props sectionProperties children))))
                (paragraph_style
                   (toNode ancestry
                      (IsParagraph props sectionProperties children))))
             None decoded)).
Proof.
  intros Hppr Hchildren Hnone. unfold Paragraph_fromNode.
  cbn [toNode childNodes]. rewrite List.filter_app, (filter_none _ _ Hppr).
  cbn [app]. rewrite filter_all; [done|].
  revert Hchildren.
  generalize (IsParagraph props sectionProperties children :: ancestry).
  intros ancestry' Hchildren.
  induction Hnone as [|c children' Hc' _ IH]; [constructor|].
  inversion_clear Hchildren as [|? ? Hc Hrest].
  cbn [map]. constructor; [|by apply IH].
  destruct c as [t|props' children''|d|props' sp children'']; simpl in *;
    try done; by apply Hc.
Qed.

End Components.

(** ** The codecs on concrete documents *)

(** Modelled from the spec: stand-ins for the imports that are not at hand,
    to run the codecs on concrete documents.  By the spec's round-trip law
    the codecs of [Text] and [TextDeletion] lose nothing, so an instance is
    kept as the element it is read from, a [w:r] and a [w:del] element (the
    elements [Paragraph.fromNode] selects next to [w:ins]); a date is kept as
    its ISO-8601 string, a property bag as its [w:pPr] elements. *)
#[local] Instance verbatim : Foreign := {|
  Date := string;
  Text := XmlNode;
  TextDeletion := XmlNode;
  ParagraphProperties := list XmlNode;
  SectionProperties := list XmlNode
|}.

#[local] Instance verbatim_codecs : ForeignCodecs := {|
  toISOString := λ d, d;
  parseDate := Some;
  Text_toNode := λ _ t, t;
  Text_matchesNode := is_element (w "r");
  Text_fromNode := Returned;
  TextDeletion_toNode := λ _ d, d;
  TextDeletion_matchesNode := is_element (w "del");
  TextDeletion_fromNode := Returned;
  paragraphPropertiesToNode := λ props _, properties props;
  paragraphPropertiesFromNode := λ ppr, ppr
|}.

Definition change (i a d : string) : ChangeInformation :=
  mkChangeInformation i a d.

(** A tracked insertion by A that holds a tracked insertion by B. *)
Definition nested_insertion : Component :=
  IsTextAddition (change "1" "A" "2020-01-01T00:00:00.000Z")
    [IsTextAddition (change "2" "B" "2020-01-02T00:00:00.000Z") []].

Example nested_insertion_encoded :
  toNode [] nested_insertion
  = Element "w:ins"
      [("w:id", "1"); ("w:author", "A"); ("w:date", "2020-01-01T00:00:00.000Z")]
      [Element "w:ins"
         [("w:id", "2"); ("w:author", "B");
          ("w:date", "2020-01-02T00:00:00.000Z")] []]%string.
Proof. reflexivity. Qed.

(** Decoding the encoded insertion loses the inner one. *)
Example nested_insertion_decoded :
  fromNode "TextAddition" (toNode [] nested_insertion)
  = Returned (IsTextAddition (change "1" "A" "2020-01-01T00:00:00.000Z") []).
Proof. reflexivity. Qed.

(** A text run below a tracked insertion does come back. *)
Example insertion_of_run_round_trip :
  fromNode "TextAddition"
    (toNode [] (IsTextAddition (change "1" "A" "2020-01-01T00:00:00.000Z")
                  [IsText (Element "w:r" [] [])]))
  = Returned (IsTextAddition (change "1" "A" "2020-01-01T00:00:00.000Z")
                [IsText (Element "w:r" [] [])]).
Proof. reflexivity. Qed.

(** A paragraph with a hyperlink between two runs. *)
Definition paragraph_with_hyperlink : XmlNode :=
  Element "w:p" []
    [Element "w:r" [] [TextNode "a"];
     Element "w:hyperlink" [] [Element "w:r" [] [TextNode "b"]];
     Element "w:r" [] [TextNode "c"]].

(** No candidate of the paragraph matches the hyperlink, and the dispatcher
    fails on it; yet the paragraph is decoded, without the hyperlink. *)
Lemma Paragraph_fromNode_drops_hyperlink :
  Forall (rejects (Element "w:hyperlink" [] [Element "w:r" [] [TextNode "b"]]))
    Paragraph_children ∧
  dispatchDecode Paragraph_children
    (Element "w:hyperlink" [] [Element "w:r" [] [TextNode "b"]])
  = Thrown NoMatchingTypeError ∧
  fromNode "Paragraph" paragraph_with_hyperlink
  = Returned (IsParagraph (mkParagraphProps [] []) None
                [IsText (Element "w:r" [] [TextNode "a"]);
                 IsText (Element "w:r" [] [TextNode "c"])]).
Proof.
  split; [|split; reflexivity].
  repeat constructor; eexists; (split; [reflexivity|reflexivity]).
Qed.

Lemma Paragraph_fromNode_omits_unselected_witness :
  dispatchDecode Paragraph_children (Element "w:hyperlink" [] [])
  = Thrown NoMatchingTypeError ∧
  Paragraph_fromNode dispatchDecode
    (Element "w:p" [] ([Element "w:r" [] []]
                       ++ Element "w:hyperlink" [] [] :: [Element "w:r" [] []]))
  = Paragraph_fromNode dispatchDecode
      (Element "w:p" [] ([Element "w:r" [] []] ++ [Element "w:r" [] []])).
Proof.
  apply (Paragraph_fromNode_omits_unselected dispatchDecode Paragraph_children
           (Element "w:hyperlink" [] []) "w:p" []
           [Element "w:r" [] []] (Element "w:hyperlink" [] [])
           [Element "w:r" [] []]).
  - repeat constructor; eexists; (split; [reflexivity|reflexivity]).
  - reflexivity.
  - reflexivity.
Defined.

(** A tracked insertion with a run between two nested insertions: only the
    run comes back. *)
Example insertion_between_insertions_decoded :
  fromNode "TextAddition"
    (toNode []
       (IsTextAddition (change "1" "A" "2020-01-01T00:00:00.000Z")
          [nested_insertion; IsText (Element "w:r" [] []); nested_insertion]))
  = Returned (IsTextAddition (change "1" "A" "2020-01-01T00:00:00.000Z")
                [IsText (Element "w:r" [] [])]).
Proof. reflexivity. Qed.

(** A run without content. *)
Definition empty_run : Component := @IsText verbatim (Element "w:r" [] []).

(** A paragraph with properties, a run and a nested tracked insertion. *)
Definition paragraph_with_insertion : Component :=
  IsParagraph (@mkParagraphProps verbatim [Element "w:pPr" [] []] []) None
    [empty_run; nested_insertion].

(** Decoded after encoding, the paragraph has the run and the insertion, the
    latter without the insertion it held. *)
Example paragraph_with_insertion_decoded :
  fromNode "Paragraph" (toNode [] paragraph_with_insertion)
  = Returned
      (IsParagraph (@mkParagraphProps verbatim [Element "w:pPr" [] []] []) None
         [empty_run;
          IsTextAddition (change "1" "A" "2020-01-01T00:00:00.000Z") []]).
Proof. reflexivity. Qed.

Lemma Paragraph_round_trip_hands_all_children_witness :
  Paragraph_fromNode dispatchDecode (toNode [] paragraph_with_insertion)
  = (decoded ← createChildComponentsFromNodes dispatchDecode Paragraph_children
                 (map (toNode [paragraph_with_insertion])
                    [empty_run; nested_insertion]);
     mret (IsParagraph
             (mkParagraphProps
                (paragraphPropertiesFromNode
                   (child_elements (w "pPr")
                      (toNode [] paragraph_with_insertion)))
                (paragraph_style (toNode [] paragraph_with_insertion)))
             None decoded)).
Proof.
  apply (Paragraph_round_trip_hands_all_children dispatchDecode []
           (@mkParagraphProps verbatim [Element "w:pPr" [] []] []) None
           [empty_run; nested_insertion]).
  - repeat constructor.
  - repeat constructor.
  - repeat constructor.
Defined.

End Components.

(** * The settings part: [Settings] *)

Module SettingsPart.
Import Xml.

(** A thrown [Error], with the two fields the warning reads. *)
Record JsError : Type := mkJsError {
  stack : option string;
  message : string
}.

(** Modelled from the spec: files/Relationships.ts is not at hand.  A
    relationship has an id, a type and a target that may be external; the
    relationships of a part are kept with the location of their [.rels]
    resource, and [new Relationships(location)] has none yet. *)
Record Relationship : Type := mkRelationship {
  rel_id : string;
  rel_type : string;
  rel_target : string;
  rel_isExternal : bool
}.

Record Relationships : Type := mkRelationships {
  rels_location : string;
  meta : list Relationship
}.

Definition new_Relationships (location : string) : Relationships :=
  mkRelationships location [].

(** What files/Settings.ts imports and is not at hand. *)
Class Imports : Type := {
  (** classes/Archive.ts *)
  Archive : Type;
  readXml : Archive → string → Result JsError XmlNode;
  (** files/Relationships.ts *)
  Relationships_fromArchive : Archive → string → Result JsError Relationships;
  (** std/path *)
  dirname : string → string;
  basename : string → string;
  (** utilities/namespaces.ts *)
  ALL_NAMESPACE_DECLARATIONS : list (string * string);
  (** utilities/xquery.ts: the XPath function [ooxml:is-on-off-enabled], on
      an attribute value that may be missing, and the error the XPath engine
      throws when a path does not yield what is asked of it *)
  is_on_off_enabled : option string → bool;
  xpath_error : JsError
}.

Section Settings.
Context `{imports : Imports}.

(** [SettingsJson]. *)
Record SettingsJson : Type := mkSettingsJson {
  json_isTrackChangesEnabled : bool
}.

Definition DEFAULT_SETTINGS : SettingsJson :=
  {| json_isTrackChangesEnabled := false |}.

(** An instance of [Settings]: the [location] of the [XmlFile], the
    [relationships] and the settings themselves. *)
Record Settings : Type := mkSettings {
  location : string;
  relationships : Relationships;
  isTrackChangesEnabled : bool
}.

(** [`${path.dirname(location)}/_rels/${path.basename(location)}.rels`]. *)
Definition relationshipsLocation (location : string) : string :=
  dirname location +:+ "/_rels/" +:+ basename location +:+ ".rels".

(** The constructor; [None] is an argument left out, which takes its
    default.  [Object.assign(this, settings)] sets the flag. *)
Definition new_Settings (location : string)
    (relationships : option Relationships) (settings : option SettingsJson)
  : Settings :=
  {| location := location;
     relationships :=
       default (new_Relationships (relationshipsLocation location))
         relationships;
     isTrackChangesEnabled :=
       json_isTrackChangesEnabled (default DEFAULT_SETTINGS settings) |}.

(** [toNode]: the [w:settings] document, with an empty [w:trackRevisions]
    element when the flag is set (the attribute of the template is inside an
    XQuery comment). *)
Definition toNode (this : Settings) : XmlNode :=
  Element "w:settings" ALL_NAMESPACE_DECLARATIONS
    (if isTrackChangesEnabled this
     then [Element (w "trackRevisions") [] []]
     else []).

(** The XPath of [fromArchive],
    [/w:settings/map { "isTrackChangesEnabled":
       ooxml:is-on-off-enabled(./w:trackChanges/@w:val) }],
    evaluated on a document to one map.  The function takes at most one
    attribute value. *)
Definition evaluate_settings (document : XmlNode) : Result JsError SettingsJson :=
  if is_element (w "settings") document then
    match (trackChanges ← child_elements (w "trackChanges") document;
           option_list (attribute (w "val") trackChanges)) with
    | [] => Returned (mkSettingsJson (is_on_off_enabled None))
    | [val] => Returned (mkSettingsJson (is_on_off_enabled (Some val)))
    | _ => Thrown xpath_error
    end
  else Thrown xpath_error.

Definition newline : string := String (Ascii.ascii_of_nat 10) EmptyString.

(** The line [console.error] prints:
    ['Warning, relationships could not be resolved\n' +
     (error.stack || error.message)]. *)
Definition warning (error : JsError) : string :=
  "Warning, relationships could not be resolved" +:+ newline +:+
  match stack error with
  | Some s => if String.eqb s "" then message error else s
  | None => message error
  end.

(** [Settings.fromArchive(archive, location)]: what [console.error] printed,
    and the instance or the error thrown. *)
Definition fromArchive (archive : Archive) (location : string)
  : list string * Result JsError Settings :=
  let relationshipsLocation := relationshipsLocation location in
  let '(printed, relationships) :=
    match Relationships_fromArchive archive relationshipsLocation with
    | Returned relationships => ([], Some relationships)
    | Thrown error => ([warning error], None)
    end in
  (printed,
   document ← readXml archive location;
   settings ← evaluate_settings document;
   mret (new_Settings location
           (Some (default (new_Relationships relationshipsLocation)
                    relationships))
           (Some settings))).

(** ** Reading back what [toNode] writes *)

Lemma evaluate_settings_toNode this :
  evaluate_settings (toNode this)
  = Returned (mkSettingsJson (is_on_off_enabled None)).
Proof.
  unfold evaluate_settings, toNode.
  change (is_element (w "settings") (Element "w:settings" _ _)) with true.
  cbv iota. by destruct (isTrackChangesEnabled this).
Qed.

(** C5. The track-changes flag across a round trip: an archive that holds at
    [location] the document [toNode] writes is parsed to settings whose flag
    is [ooxml:is-on-off-enabled] of a missing attribute, whatever the flag
    written.  [toNode] writes [w:trackRevisions], [fromArchive] looks for
    [w:trackChanges]: the flag written is not read. *)
Theorem Settings_round_trip_forgets_flag archive this :
  readXml archive (location this) = Returned (toNode this) →
  isTrackChangesEnabled <$> (fromArchive archive (location this)).2
  = Returned (is_on_off_enabled None).
Proof.
  intros Hread. unfold fromArchive.
  destruct (Relationships_fromArchive _ _) as [r|e]; cbn [snd];
    rewrite Hread; cbn; rewrite evaluate_settings_toNode; reflexivity.
Qed.

(** C8. Missing relationships: when reading the [.rels] resource throws
    while the settings document itself is read and evaluated, [fromArchive]
    prints one warning and returns the settings with fresh, empty
    relationships at the [.rels] location; and whatever the [.rels] resource
    of another archive with the same settings document, the settings parsed
    from it have the same flag. *)
Theorem fromArchive_without_relationships
    archive location error document settings :
  Relationships_fromArchive archive (relationshipsLocation location)
  = Thrown error →
  readXml archive location = Returned document →
  evaluate_settings document = Returned settings →
  fromArchive archive location
  = ([warning error],
     Returned {| location := location;
                 relationships :=
                   new_Relationships (relationshipsLocation location);
                 isTrackChangesEnabled := json_isTrackChangesEnabled settings |})
  ∧ meta (new_Relationships (relationshipsLocation location)) = []
  ∧ ∀ archive',
      readXml archive' location = Returned document →
      ∃ printed relationships',
        fromArchive archive' location
        = (printed,
           Returned {| location := location;
                       relationships := relationships';
                       isTrackChangesEnabled :=
                         json_isTrackChangesEnabled settings |}).
Proof.
  intros Hrels Hread Heval. split; [|split; [reflexivity|]].
  - unfold fromArchive. rewrite Hrels, Hread. cbn. rewrite Heval. reflexivity.
  - intros archive' Hread'. unfold fromArchive.
    destruct (Relationships_fromArchive archive' _) as [r|e];
      rewrite Hread'; cbn; rewrite Heval; cbn; eauto.
Qed.

(** ** When [fromArchive] fails, and what it prints *)

(** [fromArchive] fails exactly when the settings document cannot be read or
    its XPath cannot be evaluated, and with that error: the relationships
    never make it fail. *)
Theorem fromArchive_fails_on_settings_only archive location error :
  (fromArchive archive location).2 = Thrown error ↔
  readXml archive location = Thrown error ∨
  ∃ document, readXml archive location = Returned document ∧
              evaluate_settings document = Thrown error.
Proof.
  unfold fromArchive.
  destruct (Relationships_fromArchive _ _) as [r|e]; cbn [snd];
    (destruct (readXml archive location) as [document|e'] eqn:Hread; cbn;
     [ destruct (evaluate_settings document) as [settings|e''] eqn:Heval; cbn
     | ]);
    split; try done; try (intros [= ->]; eauto; fail);
    try (intros [?|(document' & [= <-] & Heval')]; congruence).
Qed.

(** With relationships that are read, [fromArchive] prints nothing and the
    settings carry these relationships as they were read. *)
Theorem fromArchive_with_read_relationships
    archive location read document settings :
  Relationships_fromArchive archive (relationshipsLocation location)
  = Returned read →
  readXml archive location = Returned document →
  evaluate_settings document = Returned settings →
  fromArchive archive location
  = ([],
     Returned {| location := location;
                 relationships := read;
                 isTrackChangesEnabled := json_isTrackChangesEnabled settings |}).
Proof.
  intros Hrels Hread Heval. unfold fromArchive.
  rewrite Hrels, Hread. cbn. rewrite Heval. reflexivity.
Qed.

(** [fromArchive] prints a line exactly when the relationships cannot be
    read, one line, also when it goes on to fail on the settings
    document. *)
Theorem fromArchive_prints_on_missing_relationships archive location :
  (fromArchive archive location).1
  = match Relationships_fromArchive archive (relationshipsLocation location) with
    | Returned _ => []
    | Thrown error => [warning error]
    end.
Proof.
  unfold fromArchive. by destruct (Relationships_fromArchive _ _).
Qed.

(** ** What [toNode] writes, and what [fromArchive] returns *)

(** The document [toNode] writes tells the flag: two settings are written
    to the same document exactly when their flags agree, whatever their
    locations and relationships.  The writer loses nothing of the flag. *)
Theorem toNode_tells_flag this that :
  toNode this = toNode that ↔
  isTrackChangesEnabled this = isTrackChangesEnabled that.
Proof.
  unfold toNode.
  destruct (isTrackChangesEnabled this), (isTrackChangesEnabled that);
    split; try done; intros [=].
Qed.

(** Settings that [fromArchive] returns are at the location asked for; their
    relationships are those read from the [.rels] location, with nothing
    printed, or when these cannot be read the empty ones at that location,
    with one warning printed; and the settings document was read at the
    location and evaluated to their flag. *)
Theorem fromArchive_returned archive asked printed this :
  fromArchive archive asked = (printed, Returned this) →
  location this = asked ∧
  (printed, relationships this)
  = match Relationships_fromArchive archive (relationshipsLocation asked) with
    | Returned read => ([], read)
    | Thrown error =>
        ([warning error], new_Relationships (relationshipsLocation asked))
    end ∧
  ∃ document,
    readXml archive asked = Returned document ∧
    evaluate_settings document
    = Returned (mkSettingsJson (isTrackChangesEnabled this)).
Proof.
  unfold fromArchive.
  destruct (Relationships_fromArchive _ _) as [read|error];
    (destruct (readXml archive asked) as [document|e] eqn:Hread; cbn;
     [ destruct (evaluate_settings document) as [[flag]|e] eqn:Heval; cbn
     | ]);
    intros [= <- <-]; cbn; eauto.
Qed.

End Settings.

(** ** The settings part on a concrete archive *)

Fixpoint has_slash (s : string) : bool :=
  match s with
  | EmptyString => false
  | String c rest => Ascii.eqb c "/"%char || has_slash rest
  end.

Fixpoint before_last_slash (s : string) : string :=
  match s with
  | EmptyString => EmptyString
  | String c rest =>
      if has_slash rest then String c (before_last_slash rest) else EmptyString
  end.

Fixpoint after_last_slash (s : string) : string :=
  match s with
  | EmptyString => EmptyString
  | String c rest =>
      if has_slash rest then after_last_slash rest
      else if Ascii.eqb c "/"%char then rest else s
  end.

(** The relationships a [.rels] document lists: its [Relationship]
    elements, each with an id, a type and a target. *)
Definition relationship_of (node : XmlNode) : option Relationship :=
  i ← attribute "Id" node;
  t ← attribute "Type" node;
  target ← attribute "Target" node;
  Some (mkRelationship i t target
          (bool_decide (attribute "TargetMode" node = Some "External"%string))).

Definition relationships_of (document : XmlNode) : list Relationship :=
  omap relationship_of (child_elements "Relationship" document).

(** Stand-ins for the imports, to run [fromArchive] on a concrete archive:
    an archive is a map from locations to documents, reading a location
    that is not there throws, the relationships are read from the document
    at their location, a path is cut at its last slash, and an on/off
    attribute is on at [1], [true] and [on]. *)
#[local] Instance in_memory : Imports := {|
  Archive := gmap string XmlNode;
  readXml := λ archive location,
    match archive !! location with
    | Some document => Returned document
    | None => Thrown (mkJsError None ("File not found: " +:+ location))
    end;
  Relationships_fromArchive := λ archive location,
    match archive !! location with
    | Some document =>
        Returned (mkRelationships location (relationships_of document))
    | None => Thrown (mkJsError None ("File not found: " +:+ location))
    end;
  dirname := λ path, if has_slash path then before_last_slash path else ".";
  basename := after_last_slash;
  ALL_NAMESPACE_DECLARATIONS :=
    [("xmlns:w",
      "http://schemas.openxmlformats.org/wordprocessingml/2006/main")];
  is_on_off_enabled := λ val,
    match val with
    | Some v => String.eqb v "1" || String.eqb v "true" || String.eqb v "on"
    | None => false
    end;
  xpath_error := mkJsError None "XPTY0004"
|}.

Example relationshipsLocation_of_settings :
  relationshipsLocation "word/settings.xml" = "word/_rels/settings.xml.rels".
Proof. reflexivity. Qed.

(** Settings with track changes switched on. *)
Definition tracked : Settings :=
  new_Settings "word/settings.xml" None (Some (mkSettingsJson true)).

(** The archive that holds what [toNode] writes for them. *)
Definition written : gmap string XmlNode :=
  {[ "word/settings.xml" := toNode tracked ]}.

Example tracked_written :
  toNode tracked
  = Element "w:settings"
      [("xmlns:w",
        "http://schemas.openxmlformats.org/wordprocessingml/2006/main")]
      [Element "w:trackRevisions" [] []]%string.
Proof. reflexivity. Qed.

(** Read back, track changes are switched off. *)
Example tracked_read_back :
  isTrackChangesEnabled <$> (fromArchive written "word/settings.xml").2
  = Returned false.
Proof. vm_compute. reflexivity. Qed.

Lemma Settings_round_trip_forgets_flag_witness :
  readXml written (location tracked) = Returned (toNode tracked) ∧
  isTrackChangesEnabled <$> (fromArchive written (location tracked)).2
  = Returned false.
Proof.
  split; [vm_compute; reflexivity|].
  apply (Settings_round_trip_forgets_flag (imports:=in_memory) written tracked).
  vm_compute. reflexivity.
Defined.

(** A settings document that does switch track changes on for the reader,
    in an archive without [.rels] resource. *)
Definition settings_document : XmlNode :=
  Element "w:settings" []
    [Element "w:trackChanges" [("w:val", "true")]%string []].

Definition without_rels : gmap string XmlNode :=
  {[ "word/settings.xml" := settings_document ]}.

(** The same settings document with its [.rels] resource. *)
Definition with_rels : gmap string XmlNode :=
  <[ "word/_rels/settings.xml.rels" :=
       Element "Relationships" []
         [Element "Relationship"
            [("Id", "rId1"); ("Type", "attachedTemplate");
             ("Target", "file:///template.dotx"); ("TargetMode", "External")]
            []]%string ]> without_rels.

(** With the resource nothing is printed, and the flag is the same. *)
Example fromArchive_with_relationships :
  fromArchive with_rels "word/settings.xml"
  = ([],
     Returned {| location := "word/settings.xml";
                 relationships :=
                   mkRelationships "word/_rels/settings.xml.rels"
                     [mkRelationship "rId1" "attachedTemplate"
                        "file:///template.dotx" true];
                 isTrackChangesEnabled := true |}).
Proof. vm_compute. reflexivity. Qed.

Definition not_found : JsError :=
  mkJsError None "File not found: word/_rels/settings.xml.rels".

Lemma fromArchive_without_relationships_witness :
  fromArchive without_rels "word/settings.xml"
  = ([warning not_found],
     Returned {| location := "word/settings.xml";
                 relationships :=
                   new_Relationships (relationshipsLocation "word/settings.xml");
                 isTrackChangesEnabled := true |})
  ∧ meta (new_Relationships (relationshipsLocation "word/settings.xml")) = []
  ∧ ∀ archive' : gmap string XmlNode,
      readXml archive' "word/settings.xml" = Returned settings_document →
      ∃ printed relationships',
        fromArchive archive' "word/settings.xml"
        = (printed,
           Returned {| location := "word/settings.xml";
                       relationships := relationships';
                       isTrackChangesEnabled := true |}).
Proof.
  apply (fromArchive_without_relationships (imports:=in_memory)
           without_rels "word/settings.xml"
           not_found settings_document (mkSettingsJson true)).
  - vm_compute. reflexivity.
  - vm_compute. reflexivity.
  - vm_compute. reflexivity.
Defined.

Lemma fromArchive_with_read_relationships_witness :
  fromArchive with_rels "word/settings.xml"
  = ([],
     Returned {| location := "word/settings.xml";
                 relationships :=
                   mkRelationships "word/_rels/settings.xml.rels"
                     [mkRelationship "rId1" "attachedTemplate"
                        "file:///template.dotx" true];
                 isTrackChangesEnabled := true |}).
Proof.
  apply (fromArchive_with_read_relationships (imports:=in_memory)
           with_rels "word/settings.xml"
           (mkRelationships "word/_rels/settings.xml.rels"
              [mkRelationship "rId1" "attachedTemplate"
                 "file:///template.dotx" true])
           settings_document (mkSettingsJson true)).
  - vm_compute. reflexivity.
  - vm_compute. reflexivity.
  - vm_compute. reflexivity.
Defined.

Lemma fromArchive_returned_witness :
  location tracked = "word/settings.xml" ∧
  ([warning not_found], relationships tracked)
  = match Relationships_fromArchive without_rels
            (relationshipsLocation "word/settings.xml") with
    | Returned read => ([], read)
    | Thrown error =>
        ([warning error],
         new_Relationships (relationshipsLocation "word/settings.xml"))
    end ∧
  ∃ document,
    readXml without_rels "word/settings.xml" = Returned document ∧
    evaluate_settings document
    = Returned (mkSettingsJson (isTrackChangesEnabled tracked)).
Proof.
  apply (fromArchive_returned (imports:=in_memory) without_rels
           "word/settings.xml" [warning not_found] tracked).
  vm_compute. reflexivity.
Defined.

(** An archive without settings document: the parse fails, after the
    warning about the relationships. *)
Example fromArchive_of_empty_archive :
  fromArchive (∅ : gmap string XmlNode) "word/settings.xml"
  = ([warning not_found],
     Thrown (mkJsError None "File not found: word/settings.xml")).
Proof. vm_compute. reflexivity. Qed.

End SettingsPart.

(** * The parameter check: [checkForForbiddenParameters] *)

Module ParameterChecking.

(** A value of a props object: a number, a string, a boolean or a nested
    object, whose fields are kept in the order they are written. *)
Inductive PropValue : Type :=
| PNumber (n : JsNumber)
| PString (s : string)
| PBoolean (b : bool)
| PObject (fields : list (string * PropValue)).

(** The error of the check, with the path to the offending field. *)
Inductive ParameterError : Type :=
| InvalidParameterError (path : list string).

(** Modelled from the spec: utilities/parameter-checking.ts is not at hand,
    only its test is.  A number is valid when it is not NaN. *)
Definition isValidNumber (n : JsNumber) : bool := negb (Number_isNaN n).

(** Modelled from the spec: utilities/parameter-checking.ts is not at hand.
    The walk of the check over one value reached by [path]: a numeric field
    the callback refuses stops the walk with its path, a nested object is
    walked field by field, other values pass. *)
Fixpoint check_value (callback : JsNumber → bool) (path : list string)
    (v : PropValue) : Result ParameterError () :=
  match v with
  | PNumber n =>
      if callback n then Returned () else Thrown (InvalidParameterError path)
  | PObject fields =>
      (fix each fields :=
         match fields with
         | [] => Returned ()
         | (key, value) :: rest =>
             match check_value callback (path ++ [key]) value with
             | Thrown e => Thrown e
             | Returned _ => each rest
             end
         end) fields
  | PString _ | PBoolean _ => Returned ()
  end.

(** Modelled from the spec: utilities/parameter-checking.ts is not at hand.
    By the spec a nested props object with a not-a-number numeric field
    anywhere in it is rejected, eagerly and with the path to the offending
    field, and one with valid numbers only is accepted; by the test the
    check then returns [true].  The test passes [true] as a third argument,
    of which the spec says nothing; it is left out. *)
Definition checkForForbiddenParameters (objectToCheck : list (string * PropValue))
    (callback : JsNumber → bool) : Result ParameterError bool :=
  match check_value callback [] (PObject objectToCheck) with
  | Returned _ => Returned true
  | Thrown e => Thrown e
  end.

(** The numeric fields of a value, anywhere in it. *)
Fixpoint numbers (v : PropValue) : list JsNumber :=
  match v with
  | PNumber n => [n]
  | PObject fields => concat (map (λ kv, numbers kv.2) fields)
  | PString _ | PBoolean _ => []
  end.

(** [field_at v path v']: following the keys of [path] from [v] leads to
    [v']. *)
Inductive field_at : PropValue → list string → PropValue → Prop :=
| field_here v : field_at v [] v
| field_below fields key value path v' :
    (key, value) ∈ fields → field_at value path v' →
    field_at (PObject fields) (key :: path) v'.

(** ** The objects of the test *)

Definition passingInnerObject : list (string * PropValue) :=
  [("first", PString "darkness"); ("second", PNumber (Num 4));
   ("third", PBoolean false)]%string.

Definition failingInnerObject : list (string * PropValue) :=
  [("first", PString "darkness"); ("second", PNumber NaN);
   ("third", PBoolean true)]%string.

Definition passingOuterObject : list (string * PropValue) :=
  [("first", PNumber (Num 164)); ("second", PNumber (Num 123));
   ("third", PObject passingInnerObject); ("fourth", PNumber (Num 7))]%string.

Definition failingOuterObject : list (string * PropValue) :=
  [("first", PNumber (Num 1)); ("second", PNumber (Num 2));
   ("third", PObject failingInnerObject); ("fourth", PNumber (Num 3))]%string.

(** The two expectations of the test. *)
Example passingOuterObject_accepted :
  checkForForbiddenParameters passingOuterObject isValidNumber = Returned true.
Proof. reflexivity. Qed.

Example failingOuterObject_rejected :
  checkForForbiddenParameters failingOuterObject isValidNumber
  = Thrown (InvalidParameterError ["third"; "second"]%string).
Proof. reflexivity. Qed.

(** ** Induction over nested values *)

Lemma PropValue_nested_ind (Q : PropValue → Prop) :
  (∀ n, Q (PNumber n)) → (∀ s, Q (PString s)) → (∀ b, Q (PBoolean b)) →
  (∀ fields, Forall (λ kv, Q kv.2) fields → Q (PObject fields)) →
  ∀ v, Q v.
Proof.
  intros HN HS HB HO. fix IH 1. intros [n|s|b|fields].
  - apply HN.
  - apply HS.
  - apply HB.
  - apply HO. induction fields as [|[key value] fields IHfields]; constructor.
    + apply IH.
    + exact IHfields.
Qed.

Lemma field_at_app v path v' path' v'' :
  field_at v path v' → field_at v' path' v'' → field_at v (path ++ path') v''.
Proof.
  induction 1 as [|fields key value path v' Hin _ IH]; intros Hnext; simpl.
  - done.
  - econstructor; eauto.
Qed.

Lemma check_value_fields callback path key value rest :
  check_value callback path (PObject ((key, value) :: rest))
  = match check_value callback (path ++ [key]) value with
    | Thrown e => Thrown e
    | Returned _ => check_value callback path (PObject rest)
    end.
Proof. reflexivity. Qed.

Lemma numbers_fields key value rest :
  numbers (PObject ((key, value) :: rest))
  = numbers value ++ numbers (PObject rest).
Proof. reflexivity. Qed.

(** What the walk returns, for a value [v] reached from [root] by [path]. *)
Lemma check_value_spec root v :
  ∀ path, field_at root path v →
    match check_value isValidNumber path v with
    | Returned _ => Forall (λ n, Number_isNaN n = false) (numbers v)
    | Thrown (InvalidParameterError path') =>
        field_at root path' (PNumber NaN) ∧
        Exists (λ n, Number_isNaN n = true) (numbers v)
    end.
Proof.
  induction v as [n|s|b|fields IH] using PropValue_nested_ind;
    intros path Hpath; try by constructor.
  - simpl. unfold isValidNumber. destruct n; simpl.
    + split; [done|]. by constructor.
    + by repeat constructor.
    + by repeat constructor.
  - assert (Hsub : ∀ key value, (key, value) ∈ fields →
                   field_at root (path ++ [key]) value).
    { intros key value Hin. eapply field_at_app; [done|].
      econstructor; [done|constructor]. }
    clear Hpath. induction IH as [|[key value] fields Hvalue _ IHfields].
    + constructor.
    + rewrite check_value_fields, numbers_fields.
      specialize (Hvalue (path ++ [key]) (Hsub key value ltac:(left))).
      simpl in Hvalue.
      destruct (check_value isValidNumber (path ++ [key]) value) as [[]|[path']].
      * assert (Hrest : ∀ key' value', (key', value') ∈ fields →
                        field_at root (path ++ [key']) value').
        { intros key' value' Hin. apply Hsub. by right. }
        specialize (IHfields Hrest).
        destruct (check_value isValidNumber path (PObject fields)) as [[]|[path']].
        -- by apply Forall_app.
        -- destruct IHfields as [Hat Hex]. split; [done|].
           apply Exists_app. by right.
      * destruct Hvalue as [Hat Hex]. split; [done|].
        apply Exists_app. by left.
Qed.

(** C9. Parameter validation: the check with [isValidNumber] throws exactly
    when some numeric field anywhere in the nested object is NaN, and the
    path it throws leads to a NaN field; it returns [true] exactly when every
    numeric field is a valid number. *)
Theorem checkForForbiddenParameters_isValidNumber objectToCheck :
  match checkForForbiddenParameters objectToCheck isValidNumber with
  | Returned accepted =>
      accepted = true ∧
      Forall (λ n, Number_isNaN n = false) (numbers (PObject objectToCheck))
  | Thrown (InvalidParameterError path) =>
      field_at (PObject objectToCheck) path (PNumber NaN) ∧
      Exists (λ n, Number_isNaN n = true) (numbers (PObject objectToCheck))
  end.
Proof.
  unfold checkForForbiddenParameters.
  pose proof (check_value_spec (PObject objectToCheck) (PObject objectToCheck)
                [] (field_here _)) as Hspec.
  destruct (check_value isValidNumber [] (PObject objectToCheck)) as [[]|[path]];
    [split|]; done.
Qed.

End ParameterChecking.
